(** * Replication core of the graph store: chain-write client and snapshot transfer

    A shallow embedding of
      - [src/clients/storage/InternalStorageClient.cpp]  (module [InternalStorageClient])
      - [src/kvstore/raftex/SnapshotManager.cpp]         (module [SnapshotManager])

    The C++ code is asynchronous and effectful.  Each logical operation is
    followed along its chain of continuations: the model threads an explicit
    world (the promise cell, the counters of the calls made to the outside,
    and the trace of observable events) through a small state-and-exception
    monad.  Everything outside the two files (leader lookup, the RPC
    transport, the row iteration of the storage engine, flags and constants
    declared in headers) is an environment the definitions are parameterised
    by. *)

From Stdlib Require Import String ZArith List Bool Lia Arith.
Import ListNotations.

Set Implicit Arguments.

Local Open Scope Z_scope.

(** ** Outcomes and the state-and-exception monad *)

(** C++ exceptions [catch (const std::exception&)] can see. *)
Inductive Exn : Type :=
| TransportError (what : string)      (* the RPC future holds an exception *)
| PromiseAlreadySatisfied.            (* folly: setValue on a fulfilled promise *)

(** Ways a computation stops without a value. *)
Inductive Abort : Type :=
| Thrown (e : Exn)
| UndefinedBehaviour
| OutOfFuel.

Inductive Res (A : Type) : Type :=
| Val (a : A)
| Stop (why : Abort).

Arguments Stop {A} why.

Section Monad.
Variable W : Type.

Definition M (A : Type) : Type := W -> Res A * W.

Definition ret {A} (a : A) : M A := fun w => (Val a, w).

Definition bind {A B} (c : M A) (k : A -> M B) : M B :=
  fun w =>
    match c w with
    | (Val a, w') => k a w'
    | (Stop why, w') => (Stop why, w')
    end.

Definition throw {A} (e : Exn) : M A := fun w => (Stop (Thrown e), w).

Definition undefined {A} : M A := fun w => (Stop UndefinedBehaviour, w).

Definition outOfFuel {A} : M A := fun w => (Stop OutOfFuel, w).

(** [try { body } catch (const std::exception& e) { handler }]: the effects
    of [body] up to the throw are kept. *)
Definition tryCatch {A} (body : M A) (handler : Exn -> M A) : M A :=
  fun w =>
    match body w with
    | (Stop (Thrown e), w') => handler e w'
    | r => r
    end.

End Monad.

Arguments ret {W A} a.
Arguments throw {W A} e.
Arguments undefined {W A}.
Arguments outOfFuel {W A}.

Declare Scope m_scope.
Delimit Scope m_scope with m.
Notation "x <- c1 ;; c2" := (bind c1 (fun x => c2))
  (at level 61, c1 at next level, right associativity) : m_scope.
Notation "c1 ;; c2" := (bind c1 (fun _ => c2))
  (at level 61, right associativity) : m_scope.

(** ** Types shared by both files *)

Definition GraphSpaceID := Z.
Definition PartitionID := Z.
Definition TermID := Z.
Definition LogID := Z.

(** [Port] is [int32_t]: the value a 32-bit signed integer holds after an
    operation whose exact result is [z] (the low 32 bits, two's
    complement). *)
Definition int32 (z : Z) : Z := (z + 2147483648) mod 4294967296 - 2147483648.

(** [struct HostAddr { std::string host; Port port; }] *)
Record HostAddr : Type := mkHostAddr { host : string; port : Z }.

(** [nebula::Status::Code].  The enumeration is declared in a header outside
    the given sources; the code names [kLeaderChanged] and builds [kError]
    through [Status::Error], every other member is carried with its number. *)
Inductive StatusCode : Type :=
| kOk
| kError
| kLeaderChanged
| kOtherCode (n : Z).

Record Status : Type := mkStatus { code_of : StatusCode; message : string }.

(** [Status::Error(msg)] *)
Definition StatusError (msg : string) : Status :=
  {| code_of := kError; message := msg |}.

(** [StatusOr<T>]: either a value ([ok()] holds) or a status. *)
Inductive StatusOr (T : Type) : Type :=
| StValue (v : T)
| StStatus (s : Status).

Arguments StStatus {T} s.

Definition ok {T} (s : StatusOr T) : bool :=
  match s with StValue _ => true | StStatus _ => false end.

(** [folly::Try<T>]: the value of a completed future, or its exception. *)
Inductive Try (T : Type) : Type :=
| TryValue (v : T)
| TryException (what : string).

Arguments TryException {T} what.

Definition hasValue {T} (t : Try T) : bool :=
  match t with TryValue _ => true | TryException _ => false end.

(** [nebula::cpp2::ErrorCode].  The thrift enumeration is declared outside the
    given sources; the members the two files name are constructors, every
    other member is carried with its number. *)
Inductive ErrorCode : Type :=
| SUCCEEDED
| E_RPC_FAILURE
| E_LEADER_CHANGED
| E_SPACE_NOT_FOUND
| E_UNKNOWN
| E_OTHER (n : Z).

Definition ErrorCode_eqb (a b : ErrorCode) : bool :=
  match a, b with
  | SUCCEEDED, SUCCEEDED => true
  | E_RPC_FAILURE, E_RPC_FAILURE => true
  | E_LEADER_CHANGED, E_LEADER_CHANGED => true
  | E_SPACE_NOT_FOUND, E_SPACE_NOT_FOUND => true
  | E_UNKNOWN, E_UNKNOWN => true
  | E_OTHER n, E_OTHER m => Z.eqb n m
  | _, _ => false
  end.

(** * InternalStorageClient.cpp *)

Module InternalStorageClient.

(** ** Requests and responses (thrift structures, fields the code reads) *)

Record PartitionResult : Type := mkPartitionResult {
  code : ErrorCode;
  part_id : PartitionID;
  leader : option HostAddr
}.

Record ResponseCommon : Type := mkResponseCommon {
  failed_parts : list PartitionResult;
  latency_in_us : Z
}.

Record ExecResponse : Type := mkExecResponse { result : ResponseCommon }.

(** The value a chain RPC future completes with. *)
Definition RpcResult : Type := Try (StatusOr ExecResponse).

(** [for (auto& p : failedPart) { return p.code; } return SUCCEEDED;] *)
Definition firstFailedCode (failedPart : list PartitionResult) : ErrorCode :=
  match failedPart with
  | p :: _ => code p
  | [] => SUCCEEDED
  end.

Definition getErrorCode (tryResp : RpcResult) : ErrorCode :=
  match tryResp with
  | TryException _ => E_RPC_FAILURE
  | TryValue stResp =>
      match stResp with
      | StStatus st =>
          match code_of st with
          | kLeaderChanged => E_LEADER_CHANGED
          | _ => E_UNKNOWN
          end
      | StValue resp => firstFailedCode (failed_parts (result resp))
      end
  end.


(** ** Chain requests *)

(** Edge payloads are opaque to this file: it only copies them. *)
Definition NewEdge := string.
Definition EdgeKey := string.

(** [folly::EventBase*]; [None] is [nullptr]. *)
Definition EventBasePtr := option nat.

Module UpdateEdgeRequest.
Record t : Type := mk {
  space_id : GraphSpaceID;
  part_id : PartitionID;
  edge_key : EdgeKey;
  updated_props : list string;
  insertable : bool
}.
End UpdateEdgeRequest.

(** [parts] is a [std::unordered_map]; the list is its iteration order, so
    that [begin()] is the head. *)
Module AddEdgesRequest.
Record t : Type := mk {
  space_id : GraphSpaceID;
  parts : list (PartitionID * list NewEdge);
  prop_names : list string;
  if_not_exists : bool
}.
End AddEdgesRequest.

Module DeleteEdgesRequest.
Record t : Type := mk {
  space_id : GraphSpaceID;
  parts : list (PartitionID * list EdgeKey)
}.
End DeleteEdgesRequest.

Module ChainUpdateEdgeRequest.
Record t : Type := mk {
  update_edge_request : UpdateEdgeRequest.t;
  term : TermID;
  edge_version : option Z
}.
End ChainUpdateEdgeRequest.

Module ChainAddEdgesRequest.
Record t : Type := mk {
  space_id : GraphSpaceID;
  parts : list (PartitionID * list NewEdge);
  prop_names : list string;
  if_not_exists : bool;
  term : TermID;
  edge_version : option Z
}.
End ChainAddEdgesRequest.

Module ChainDeleteEdgesRequest.
Record t : Type := mk {
  space_id : GraphSpaceID;
  parts : list (PartitionID * list EdgeKey);
  txn_id : string;
  term : TermID
}.
End ChainDeleteEdgesRequest.

(** What goes on the wire: the RPC method together with its argument
    ([future_chainUpdateEdge], [future_chainAddEdges],
    [future_chainDeleteEdges]). *)
Inductive ChainRequest : Type :=
| CallChainUpdateEdge (r : ChainUpdateEdgeRequest.t)
| CallChainAddEdges (r : ChainAddEdgesRequest.t)
| CallChainDeleteEdges (r : ChainDeleteEdgesRequest.t).

(** ** Environment and world *)

(** What the client consumes from outside this file.  The answers of the
    leader lookup and of the peer may differ from one call to the next, so
    both are indexed by the number of calls made before. *)
Record Env : Type := mkEnv {
  (* constant declared in the header *)
  kInternalPortOffset : Z;
  (* default argument of the [evb] parameter, declared in the header *)
  evbDefault : EventBasePtr;
  (* [StorageClientBase::getLeader] *)
  leaderAt : nat -> GraphSpaceID -> PartitionID -> StatusOr HostAddr;
  (* [StorageClientBase::getResponse]: the completed RPC future *)
  responseAt : nat -> EventBasePtr -> HostAddr -> ChainRequest -> RpcResult
}.

Inductive Event : Type :=
| EvGetLeader (space : GraphSpaceID) (part : PartitionID)
| EvSend (evb : EventBasePtr) (dst : HostAddr) (req : ChainRequest)
| EvSleep (ms : Z)
| EvSetValue (c : ErrorCode).

(** [promise] is the state of the caller's [folly::Promise<ErrorCode>];
    [lookups] and [sends] count the calls made so far. *)
Record World : Type := mkWorld {
  promise : option ErrorCode;
  lookups : nat;
  sends : nat;
  trace : list Event
}.

(** A promise nobody has fulfilled yet, and nothing done. *)
Definition fresh : World :=
  {| promise := None; lookups := 0; sends := 0; trace := [] |}.

Definition emit (e : Event) (w : World) : World :=
  {| promise := promise w; lookups := lookups w; sends := sends w;
     trace := trace w ++ [e] |}.

(** The world after one more leader lookup, one more send, a fulfilled
    promise. *)
Definition lookedUp (space : GraphSpaceID) (part : PartitionID) (w : World) : World :=
  {| promise := promise w; lookups := S (lookups w); sends := sends w;
     trace := trace w ++ [EvGetLeader space part] |}.

Definition sent (evb : EventBasePtr) (dst : HostAddr) (req : ChainRequest) (w : World)
  : World :=
  {| promise := promise w; lookups := lookups w; sends := S (sends w);
     trace := trace w ++ [EvSend evb dst req] |}.

Definition fulfilled (c : ErrorCode) (w : World) : World :=
  {| promise := Some c; lookups := lookups w; sends := sends w;
     trace := trace w ++ [EvSetValue c] |}.

Section Client.
Variable env : Env.

Local Open Scope m_scope.

Definition getLeader (spaceId : GraphSpaceID) (partId : PartitionID)
  : M World (StatusOr HostAddr) :=
  fun w => (Val (leaderAt env (lookups w) spaceId partId), lookedUp spaceId partId w).

(** [getResponse(evb, {leader, req}, rpc)] followed to the completion of the
    future it returns. *)
Definition getResponse (evb : EventBasePtr) (request : HostAddr * ChainRequest)
  : M World RpcResult :=
  fun w =>
    (Val (responseAt env (sends w) evb (fst request) (snd request)),
     sent evb (fst request) (snd request) w).

(** [std::this_thread::sleep_for(std::chrono::milliseconds(ms))] *)
Definition sleep_for (ms : Z) : M World unit :=
  fun w => (Val tt, emit (EvSleep ms) w).

(** [p.setValue(c)]; folly throws when the promise is already fulfilled. *)
Definition setValue (c : ErrorCode) : M World unit :=
  fun w =>
    match promise w with
    | None => (Val tt, fulfilled c w)
    | Some _ => (Stop (Thrown PromiseAlreadySatisfied), w)
    end.

(** [leader.port += kInternalPortOffset]: the sum is stored back into the
    32-bit [port], so a sum outside the range of [int32_t] wraps around. *)
Definition toInternal (leader : HostAddr) : HostAddr :=
  {| host := host leader; port := int32 (port leader + kInternalPortOffset env) |}.

(** [parts.begin()->first]; dereferencing [begin()] of an empty map is
    undefined. *)
Definition beginFirst {V : Type} (parts : list (PartitionID * V)) : M World PartitionID :=
  match parts with
  | (partId, _) :: _ => ret partId
  | [] => undefined
  end.

(** Each attempt is one call of the C++ function; the re-invocation inside
    the [thenTry] continuation is the recursive call, and [fuel] bounds the
    number of attempts followed. *)
Fixpoint chainUpdateEdge (fuel : nat) (reversedRequest : UpdateEdgeRequest.t)
  (termOfSrc : TermID) (optVersion : option Z) (evb : EventBasePtr) : M World unit :=
  match fuel with
  | O => outOfFuel
  | S fuel' =>
      let spaceId := UpdateEdgeRequest.space_id reversedRequest in
      let partId := UpdateEdgeRequest.part_id reversedRequest in
      optLeader <- getLeader spaceId partId ;;
      match optLeader with
      | StStatus _ => setValue E_SPACE_NOT_FOUND
      | StValue leader0 =>
          let leader := toInternal leader0 in
          let chainReq :=
            {| ChainUpdateEdgeRequest.update_edge_request := reversedRequest;
               ChainUpdateEdgeRequest.term := termOfSrc;
               ChainUpdateEdgeRequest.edge_version :=
                 match optVersion with Some v => Some v | None => None end |} in
          t <- getResponse evb (leader, CallChainUpdateEdge chainReq) ;;
          let code := getErrorCode t in
          if ErrorCode_eqb code E_LEADER_CHANGED then
            sleep_for 500 ;;
            chainUpdateEdge fuel' reversedRequest termOfSrc optVersion (evbDefault env)
          else
            setValue code
      end
  end.

Definition makeChainAddReq (req : AddEdgesRequest.t) (termId : TermID) (ver : option Z)
  : ChainAddEdgesRequest.t :=
  {| ChainAddEdgesRequest.space_id := AddEdgesRequest.space_id req;
     ChainAddEdgesRequest.parts := AddEdgesRequest.parts req;
     ChainAddEdgesRequest.prop_names := AddEdgesRequest.prop_names req;
     ChainAddEdgesRequest.if_not_exists := AddEdgesRequest.if_not_exists req;
     ChainAddEdgesRequest.term := termId;
     ChainAddEdgesRequest.edge_version :=
       match ver with Some v => Some v | None => None end |}.

Fixpoint chainAddEdges (fuel : nat) (directReq : AddEdgesRequest.t)
  (termId : TermID) (optVersion : option Z) (evb : EventBasePtr) : M World unit :=
  match fuel with
  | O => outOfFuel
  | S fuel' =>
      partId <- beginFirst (AddEdgesRequest.parts directReq) ;;
      optLeader <- getLeader (AddEdgesRequest.space_id directReq) partId ;;
      match optLeader with
      | StStatus _ => setValue E_SPACE_NOT_FOUND
      | StValue leader0 =>
          let leader := toInternal leader0 in
          let chainReq := makeChainAddReq directReq termId optVersion in
          t <- getResponse evb (leader, CallChainAddEdges chainReq) ;;
          let code := getErrorCode t in
          if ErrorCode_eqb code E_LEADER_CHANGED then
            sleep_for 500 ;;
            chainAddEdges fuel' directReq termId optVersion (evbDefault env)
          else
            setValue code
      end
  end.

Fixpoint chainDeleteEdges (fuel : nat) (req : DeleteEdgesRequest.t)
  (txnId : string) (termId : TermID) (evb : EventBasePtr) : M World unit :=
  match fuel with
  | O => outOfFuel
  | S fuel' =>
      partId <- beginFirst (DeleteEdgesRequest.parts req) ;;
      optLeader <- getLeader (DeleteEdgesRequest.space_id req) partId ;;
      match optLeader with
      | StStatus _ => setValue E_SPACE_NOT_FOUND
      | StValue leader0 =>
          let leader := toInternal leader0 in
          let chainReq :=
            {| ChainDeleteEdgesRequest.space_id := DeleteEdgesRequest.space_id req;
               ChainDeleteEdgesRequest.parts := DeleteEdgesRequest.parts req;
               ChainDeleteEdgesRequest.txn_id := txnId;
               ChainDeleteEdgesRequest.term := termId |} in
          t <- getResponse evb (leader, CallChainDeleteEdges chainReq) ;;
          let code := getErrorCode t in
          if ErrorCode_eqb code E_LEADER_CHANGED then
            sleep_for 500 ;;
            chainDeleteEdges fuel' req txnId termId (evbDefault env)
          else
            setValue code
      end
  end.

End Client.

(** ** The three operations as one family *)

(** A call of one of the three chain operations, with its arguments (the
    promise and the event base apart). *)
Inductive ChainOp : Type :=
| UpdateEdge (reversedRequest : UpdateEdgeRequest.t) (termOfSrc : TermID)
    (optVersion : option Z)
| AddEdges (directReq : AddEdgesRequest.t) (termId : TermID) (optVersion : option Z)
| DeleteEdges (req : DeleteEdgesRequest.t) (txnId : string) (termId : TermID).

Definition invoke (env : Env) (fuel : nat) (op : ChainOp) (evb : EventBasePtr)
  : M World unit :=
  match op with
  | UpdateEdge r t v => chainUpdateEdge env fuel r t v evb
  | AddEdges r t v => chainAddEdges env fuel r t v evb
  | DeleteEdges r x t => chainDeleteEdges env fuel r x t evb
  end.

(** The space whose leader the operation asks for. *)
Definition opSpace (op : ChainOp) : GraphSpaceID :=
  match op with
  | UpdateEdge r _ _ => UpdateEdgeRequest.space_id r
  | AddEdges r _ _ => AddEdgesRequest.space_id r
  | DeleteEdges r _ _ => DeleteEdgesRequest.space_id r
  end.

(** The partition whose leader the operation asks for; [None] when the
    request has no partition to read it from. *)
Definition opPart (op : ChainOp) : option PartitionID :=
  match op with
  | UpdateEdge r _ _ => Some (UpdateEdgeRequest.part_id r)
  | AddEdges r _ _ =>
      match AddEdgesRequest.parts r with
      | (partId, _) :: _ => Some partId
      | [] => None
      end
  | DeleteEdges r _ _ =>
      match DeleteEdgesRequest.parts r with
      | (partId, _) :: _ => Some partId
      | [] => None
      end
  end.

(** The request the operation puts on the wire. *)
Definition opWire (op : ChainOp) : ChainRequest :=
  match op with
  | UpdateEdge r t v =>
      CallChainUpdateEdge
        {| ChainUpdateEdgeRequest.update_edge_request := r;
           ChainUpdateEdgeRequest.term := t;
           ChainUpdateEdgeRequest.edge_version := v |}
  | AddEdges r t v =>
      CallChainAddEdges
        {| ChainAddEdgesRequest.space_id := AddEdgesRequest.space_id r;
           ChainAddEdgesRequest.parts := AddEdgesRequest.parts r;
           ChainAddEdgesRequest.prop_names := AddEdgesRequest.prop_names r;
           ChainAddEdgesRequest.if_not_exists := AddEdgesRequest.if_not_exists r;
           ChainAddEdgesRequest.term := t;
           ChainAddEdgesRequest.edge_version := v |}
  | DeleteEdges r x t =>
      CallChainDeleteEdges
        {| ChainDeleteEdgesRequest.space_id := DeleteEdgesRequest.space_id r;
           ChainDeleteEdgesRequest.parts := DeleteEdgesRequest.parts r;
           ChainDeleteEdgesRequest.txn_id := x;
           ChainDeleteEdgesRequest.term := t |}
  end.

(** The partitions whose batches a wire request carries. *)
Definition wireParts (q : ChainRequest) : list PartitionID :=
  match q with
  | CallChainUpdateEdge r =>
      [UpdateEdgeRequest.part_id (ChainUpdateEdgeRequest.update_edge_request r)]
  | CallChainAddEdges r => map fst (ChainAddEdgesRequest.parts r)
  | CallChainDeleteEdges r => map fst (ChainDeleteEdgesRequest.parts r)
  end.

(** ** Reading a trace *)

Definition lookupsOf (tr : list Event) : list (GraphSpaceID * PartitionID) :=
  flat_map (fun e => match e with EvGetLeader s p => [(s, p)] | _ => [] end) tr.

Definition sendsOf (tr : list Event) : list (EventBasePtr * HostAddr * ChainRequest) :=
  flat_map (fun e => match e with EvSend b d q => [(b, d, q)] | _ => [] end) tr.

Definition sleepsOf (tr : list Event) : list Z :=
  flat_map (fun e => match e with EvSleep ms => [ms] | _ => [] end) tr.

Definition resolutionsOf (tr : list Event) : list ErrorCode :=
  flat_map (fun e => match e with EvSetValue c => [c] | _ => [] end) tr.

(** ** Attempts of one operation, as the environment determines them

    Attempt [i] (counted from 0) of an operation started in a world with
    [L] lookups and [S] sends behind it makes lookup number [L + i] and, if
    that succeeds, send number [S + i]. *)

(** The event base of attempt [i]. *)
Definition attemptEvb (env : Env) (evb : EventBasePtr) (i : nat) : EventBasePtr :=
  match i with
  | O => evb
  | S _ => evbDefault env
  end.

(** The code attempt [i] ends with. *)
Definition attemptCode (env : Env) (space : GraphSpaceID) (pid : PartitionID)
  (q : ChainRequest) (evb : EventBasePtr) (L S i : nat) : ErrorCode :=
  match leaderAt env (L + i) space pid with
  | StStatus _ => E_SPACE_NOT_FOUND
  | StValue l =>
      getErrorCode (responseAt env (S + i) (attemptEvb env evb i) (toInternal env l) q)
  end.

(** What attempt [i] does before it looks at the code. *)
Definition attemptEvents (env : Env) (space : GraphSpaceID) (pid : PartitionID)
  (q : ChainRequest) (evb : EventBasePtr) (L S i : nat) : list Event :=
  match leaderAt env (L + i) space pid with
  | StStatus _ => [EvGetLeader space pid]
  | StValue l =>
      [EvGetLeader space pid; EvSend (attemptEvb env evb i) (toInternal env l) q]
  end.

(** Attempts [0 .. n-1], each followed by the backoff. *)
Definition retryEvents (env : Env) (space : GraphSpaceID) (pid : PartitionID)
  (q : ChainRequest) (evb : EventBasePtr) (L S n : nat) : list Event :=
  flat_map (fun i => attemptEvents env space pid q evb L S i ++ [EvSleep 500])
    (seq 0 n).

(** The shape the three operations share, for a partition already read
    from the request. *)
Fixpoint chainLoop (env : Env) (fuel : nat) (space : GraphSpaceID) (pid : PartitionID)
  (q : ChainRequest) (evb : EventBasePtr) : M World unit :=
  match fuel with
  | O => outOfFuel
  | S fuel' =>
      bind (getLeader env space pid) (fun optLeader =>
      match optLeader with
      | StStatus _ => setValue E_SPACE_NOT_FOUND
      | StValue leader0 =>
          bind (getResponse env evb (toInternal env leader0, q)) (fun t =>
          if ErrorCode_eqb (getErrorCode t) E_LEADER_CHANGED then
            bind (sleep_for 500) (fun _ =>
            chainLoop env fuel' space pid q (evbDefault env))
          else
            setValue (getErrorCode t))
      end)
  end.

(** ** Sample environments *)

Definition hostA : HostAddr := {| host := "storage-a"; port := 9779 |}.
Definition hostB : HostAddr := {| host := "storage-b"; port := 9779 |}.

Definition okResponse : RpcResult :=
  TryValue (StValue {| result := {| failed_parts := []; latency_in_us := 0 |} |}).

Definition leaderChangedResponse : RpcResult :=
  TryValue (StStatus {| code_of := kLeaderChanged; message := "leader changed" |}).

(** The leader moves from [hostA] to [hostB] after two lookups; the peer
    reports a changed leader twice and then accepts. *)
Definition churnEnv : Env :=
  {| kInternalPortOffset := -2;
     evbDefault := None;
     leaderAt := fun i _ _ => StValue (if Nat.ltb i 2 then hostA else hostB);
     responseAt := fun i _ _ _ =>
       if Nat.ltb i 2 then leaderChangedResponse else okResponse |}.

(** No leader is known for any partition. *)
Definition lostEnv : Env :=
  {| kInternalPortOffset := -2;
     evbDefault := None;
     leaderAt := fun _ _ _ =>
       StStatus {| code_of := kOtherCode 1; message := "part not found" |};
     responseAt := fun _ _ _ _ => okResponse |}.

Definition sampleUpdate : ChainOp :=
  UpdateEdge (UpdateEdgeRequest.mk 1 7 "edge"%string ["weight"%string] false) 3 (Some 12).

(** A batch for the partitions 7 and 8. *)
Definition sampleAddReq : AddEdgesRequest.t :=
  AddEdgesRequest.mk 1 [(7, ["e1"%string]); (8, ["e2"%string])] ["weight"%string] true.

Definition sampleAdd : ChainOp := AddEdges sampleAddReq 3 None.

(** A batch for no partition at all. *)
Definition emptyAddReq : AddEdgesRequest.t :=
  AddEdgesRequest.mk 1 [] ["weight"%string] true.

(** A batch for the partitions 7 and 9. *)
Definition sampleDeleteReq : DeleteEdgesRequest.t :=
  DeleteEdgesRequest.mk 1 [(7, ["k1"%string]); (9, ["k2"%string])].

Definition sampleDelete : ChainOp := DeleteEdges sampleDeleteReq "txn-1"%string 3.

End InternalStorageClient.

(** * SnapshotManager.cpp *)

Module SnapshotManager.

(** [enum SnapshotStatus], declared in the header: the code names [DONE] and
    [FAILED]; the remaining member is the one yielded while more rows are to
    come. *)
Inductive SnapshotStatus : Type :=
| MORE
| DONE
| FAILED.

Definition SnapshotStatus_eqb (a b : SnapshotStatus) : bool :=
  match a, b with
  | MORE, MORE => true
  | DONE, DONE => true
  | FAILED, FAILED => true
  | _, _ => false
  end.

Record SendSnapshotRequest : Type := mkSendSnapshotRequest {
  space : GraphSpaceID;
  part : PartitionID;
  term : TermID;
  committed_log_id : LogID;
  committed_log_term : TermID;
  leader_addr : string;
  leader_port : Z;
  rows : list string;
  total_size : Z;
  total_count : Z;
  done : bool
}.

Record SendSnapshotResponse : Type := mkSendSnapshotResponse {
  error_code : ErrorCode
}.

(** The fields of [RaftPart] the transfer reads when it starts. *)
Record RaftPart : Type := mkRaftPart {
  spaceId_ : GraphSpaceID;
  partId_ : PartitionID;
  term_ : TermID;
  idStr_ : string;
  address : HostAddr
}.

(** The gflags of the file. *)
Record Flags : Type := mkFlags {
  snapshot_worker_threads : Z;
  snapshot_io_threads : Z;
  snapshot_send_retry_times : Z;
  snapshot_send_timeout_ms : Z
}.

(** The values of the [DEFINE_int32] lines. *)
Definition defaultFlags : Flags :=
  {| snapshot_worker_threads := 4;
     snapshot_io_threads := 4;
     snapshot_send_retry_times := 3;
     snapshot_send_timeout_ms := 60000 |}.

(** One invocation of the snapshot callback by the row iteration. *)
Record Invocation : Type := mkInvocation {
  data : list string;
  totalCount : Z;
  totalSize : Z;
  status : SnapshotStatus
}.

(** What the manager consumes from outside this file.  The committed
    position of the partition moves while the transfer runs, so it is
    indexed by the number of events that happened before the query; the
    answer to a chunk is indexed by the number of sends made before it. *)
Record Env : Type := mkEnv {
  flags : Flags;
  (* [RaftPart::lastCommittedLogId] *)
  committedAt : nat -> LogID * TermID;
  (* the invocations the storage engine makes as long as the callback
     answers true *)
  iteration : GraphSpaceID -> PartitionID -> list Invocation;
  (* completion of [client->future_sendSnapshot(req)] *)
  answerAt : nat -> HostAddr -> SendSnapshotRequest -> Try SendSnapshotResponse
}.

Definition Outcome : Type := StatusOr (LogID * TermID).

Inductive Event : Type :=
| EvLastCommittedLogId (v : LogID * TermID)
| EvSend (dst : HostAddr) (req : SendSnapshotRequest)
| EvResponse (r : Try SendSnapshotResponse)
| EvSleep (seconds : Z)
| EvSetValue (v : Outcome).

(** [promise] is the state of the promise behind the returned future. *)
Record World : Type := mkWorld {
  promise : option Outcome;
  sends : nat;
  trace : list Event
}.

(** [folly::Promise<...> p; auto fut = p.getFuture();] *)
Definition newPromise : World :=
  {| promise := None; sends := 0; trace := [] |}.

Definition emit (e : Event) (w : World) : World :=
  {| promise := promise w; sends := sends w; trace := trace w ++ [e] |}.

(** The world after one more send, and after the promise is fulfilled. *)
Definition sent (dst : HostAddr) (req : SendSnapshotRequest) (w : World) : World :=
  {| promise := promise w; sends := S (sends w); trace := trace w ++ [EvSend dst req] |}.

Definition fulfilled (v : Outcome) (w : World) : World :=
  {| promise := Some v; sends := sends w; trace := trace w ++ [EvSetValue v] |}.

(** The future [send] returns: which call it is, and what was sent where. *)
Record Future : Type := mkFuture {
  callNo : nat;
  target : HostAddr;
  request : SendSnapshotRequest
}.

Section Manager.
Variable env : Env.

Local Open Scope m_scope.

Definition lastCommittedLogId (p : RaftPart) : M World (LogID * TermID) :=
  fun w =>
    let v := committedAt env (length (trace w)) in
    (Val v, emit (EvLastCommittedLogId v) w).

(** [p.setValue(v)]; folly throws when the promise is already fulfilled. *)
Definition setValue (v : Outcome) : M World unit :=
  fun w =>
    match promise w with
    | None => (Val tt, fulfilled v w)
    | Some _ => (Stop (Thrown PromiseAlreadySatisfied), w)
    end.

(** [sleep(seconds)] *)
Definition sleep (seconds : Z) : M World unit :=
  fun w => (Val tt, emit (EvSleep seconds) w).

(** The request [send] builds from its arguments. *)
Definition buildRequest (spaceId : GraphSpaceID) (partId : PartitionID) (termId : TermID)
  (committedLogId : LogID) (committedLogTerm : TermID) (localhost : HostAddr)
  (data : list string) (totalSize totalCount : Z) (finished : bool)
  : SendSnapshotRequest :=
  {| space := spaceId;
     part := partId;
     term := termId;
     committed_log_id := committedLogId;
     committed_log_term := committedLogTerm;
     leader_addr := host localhost;
     leader_port := port localhost;
     rows := data;
     total_size := totalSize;
     total_count := totalCount;
     done := finished |}.

(** [send(...)]: the request leaves, the future of its response comes back. *)
Definition send (spaceId : GraphSpaceID) (partId : PartitionID) (termId : TermID)
  (committedLogId : LogID) (committedLogTerm : TermID) (localhost : HostAddr)
  (data : list string) (totalSize totalCount : Z) (addr : HostAddr)
  (finished : bool) : M World Future :=
  let req :=
    buildRequest spaceId partId termId committedLogId committedLogTerm localhost
      data totalSize totalCount finished in
  fun w => (Val {| callNo := sends w; target := addr; request := req |}, sent addr req w).

(** [std::move(f).get()]: blocks until the response is there, and rethrows
    the exception of a failed future. *)
Definition get (f : Future) : M World SendSnapshotResponse :=
  fun w =>
    let r := answerAt env (callNo f) (target f) (request f) in
    match r with
    | TryValue resp => (Val resp, emit (EvResponse r) w)
    | TryException what => (Stop (Thrown (TransportError what)), emit (EvResponse r) w)
    end.

Definition sendFailed : Outcome := StStatus (StatusError "Send snapshot failed!").

(** The [while (retry-- > 0)] loop of the callback, entered with [retry]
    iterations left; the code after the loop is the case [O]. *)
Fixpoint sendLoop (retry : nat) (p : RaftPart) (dst : HostAddr)
  (commitLogIdAndTerm : LogID * TermID) (inv : Invocation) : M World bool :=
  match retry with
  | O =>
      setValue sendFailed ;;
      ret false
  | S retry' =>
      f <- send (spaceId_ p) (partId_ p) (term_ p)
             (fst commitLogIdAndTerm) (snd commitLogIdAndTerm)
             (address p) (data inv) (totalSize inv) (totalCount inv) dst
             (SnapshotStatus_eqb (status inv) DONE) ;;
      tryCatch
        (resp <- get f ;;
         if ErrorCode_eqb (error_code resp) SUCCEEDED then
           (if SnapshotStatus_eqb (status inv) DONE
            then setValue (StValue commitLogIdAndTerm)
            else ret tt) ;;
           ret true
         else
           setValue sendFailed ;;
           ret false)
        (fun _ =>
           sleep 1 ;;
           sendLoop retry' p dst commitLogIdAndTerm inv)
  end.

(** The lambda handed to [accessAllRowsInSnapshot]. *)
Definition snapshotCallback (p : RaftPart) (dst : HostAddr)
  (commitLogIdAndTerm : LogID * TermID) (inv : Invocation) : M World bool :=
  if SnapshotStatus_eqb (status inv) FAILED then
    setValue sendFailed ;;
    ret false
  else
    sendLoop (Z.to_nat (snapshot_send_retry_times (flags env)))
      p dst commitLogIdAndTerm inv.

(** Modelled from the spec: [accessAllRowsInSnapshot], the row iteration of
    the storage engine, is a pure virtual method whose implementation is not
    among the given sources.  It is "a push-style callback invoked
    repeatedly with (rows, totalCount, totalSize, status)": one invocation
    after the other, the next one only when the callback has answered true
    (the callback answers false on every failure it has reported, and the
    transfer "aborts"). *)
Fixpoint accessAllRowsInSnapshot (items : list Invocation)
  (cb : Invocation -> M World bool) : M World unit :=
  match items with
  | [] => ret tt
  | inv :: rest =>
      goOn <- cb inv ;;
      if goOn then accessAllRowsInSnapshot rest cb else ret tt
  end.

(** Modelled from the spec: the protocol of the row iteration.  It yields
    "more data" once per chunk, and ends with exactly one invocation that is
    either "done" (the final chunk) or "failed". *)
Fixpoint followsProtocol (items : list Invocation) : bool :=
  match items with
  | [] => false
  | [last] => negb (SnapshotStatus_eqb (status last) MORE)
  | inv :: rest => SnapshotStatus_eqb (status inv) MORE && followsProtocol rest
  end.

(** The task [sendSnapshot] puts on the executor. *)
Definition sendSnapshotTask (p : RaftPart) (dst : HostAddr) : M World unit :=
  let spaceId := spaceId_ p in
  let partId := partId_ p in
  commitLogIdAndTerm <- lastCommittedLogId p ;;
  accessAllRowsInSnapshot (iteration env spaceId partId)
    (snapshotCallback p dst commitLogIdAndTerm).

(** [sendSnapshot(part, dst)]: the world the task leaves behind; the future
    handed to the caller is its [promise] cell. *)
Definition sendSnapshot (p : RaftPart) (dst : HostAddr) : Res unit * World :=
  sendSnapshotTask p dst newPromise.

End Manager.

(** ** Reading a trace *)

(** The request the callback sends for an invocation. *)
Definition requestFor (p : RaftPart) (commitLogIdAndTerm : LogID * TermID)
  (inv : Invocation) : SendSnapshotRequest :=
  buildRequest (spaceId_ p) (partId_ p) (term_ p)
    (fst commitLogIdAndTerm) (snd commitLogIdAndTerm) (address p)
    (data inv) (totalSize inv) (totalCount inv)
    (SnapshotStatus_eqb (status inv) DONE).

(** Sends number [start .. start + r - 1] of one request, each with its
    answer and the sleep that follows a failed attempt. *)
Definition failedAttempts (env : Env) (dst : HostAddr) (req : SendSnapshotRequest)
  (start r : nat) : list Event :=
  flat_map (fun i => [EvSend dst req; EvResponse (answerAt env i dst req); EvSleep 1])
    (seq start r).

Definition sendsOf (tr : list Event) : list (HostAddr * SendSnapshotRequest) :=
  flat_map (fun e => match e with EvSend d r => [(d, r)] | _ => [] end) tr.

Definition responsesOf (tr : list Event) : list (Try SendSnapshotResponse) :=
  flat_map (fun e => match e with EvResponse r => [r] | _ => [] end) tr.

Definition sleepsOf (tr : list Event) : list Z :=
  flat_map (fun e => match e with EvSleep s => [s] | _ => [] end) tr.

Definition resolutionsOf (tr : list Event) : list Outcome :=
  flat_map (fun e => match e with EvSetValue v => [v] | _ => [] end) tr.

(** A response that acknowledges its chunk. *)
Definition isAck (r : Try SendSnapshotResponse) : bool :=
  match r with
  | TryValue resp => ErrorCode_eqb (error_code resp) SUCCEEDED
  | TryException _ => false
  end.

(** The number of chunks acknowledged with [SUCCEEDED]. *)
Definition ackedCount (tr : list Event) : nat :=
  length (filter isAck (responsesOf tr)).

(** ** The sending discipline, as an observer of the trace

    The observer remembers how many chunks were acknowledged, the request in
    flight if there is one, and whether a terminal chunk was acknowledged. *)
Record Observer : Type := mkObserver {
  acked : nat;
  inFlight : option SendSnapshotRequest;
  doneAcked : bool
}.

Definition idle : Observer :=
  {| acked := 0; inFlight := None; doneAcked := false |}.

Definition observe (o : Observer) (e : Event) : Observer :=
  match e with
  | EvSend _ r => {| acked := acked o; inFlight := Some r; doneAcked := doneAcked o |}
  | EvResponse r =>
      if isAck r then
        {| acked := S (acked o);
           inFlight := None;
           doneAcked := doneAcked o
                        || match inFlight o with Some q => done q | None => false end |}
      else
        {| acked := acked o; inFlight := None; doneAcked := doneAcked o |}
  | _ => o
  end.

Definition observeAll (o : Observer) (tr : list Event) : Observer :=
  fold_left observe tr o.

(** What the discipline allows next: a send only when nothing is in flight,
    and only of the chunk that comes next in the iteration (all chunks
    before it acknowledged); a response only to the send in flight; anything
    else only when nothing is in flight. *)
Definition allowed (expect : nat -> option (HostAddr * SendSnapshotRequest))
  (o : Observer) (e : Event) : Prop :=
  match e with
  | EvSend d r => inFlight o = None /\ expect (acked o) = Some (d, r)
  | EvResponse _ => inFlight o <> None
  | _ => inFlight o = None
  end.

Fixpoint disciplined (expect : nat -> option (HostAddr * SendSnapshotRequest))
  (o : Observer) (tr : list Event) : Prop :=
  match tr with
  | [] => True
  | e :: tr' => allowed expect o e /\ disciplined expect (observe o e) tr'
  end.

(** The chunk the discipline expects as number [k]: the request built from
    invocation [k] of the iteration, for the given destination; an
    invocation that reports failure has no chunk. *)
Definition chunkNo (p : RaftPart) (dst : HostAddr) (commitLogIdAndTerm : LogID * TermID)
  (items : list Invocation) (k : nat) : option (HostAddr * SendSnapshotRequest) :=
  match nth_error items k with
  | Some inv =>
      if SnapshotStatus_eqb (status inv) FAILED then None
      else Some (dst, requestFor p commitLogIdAndTerm inv)
  | None => None
  end.

(** ** Sample environments *)

Definition samplePart : RaftPart :=
  {| spaceId_ := 1; partId_ := 2; term_ := 3; idStr_ := "[1:2] ";
     address := {| host := "leader"; port := 9780 |} |}.

Definition sampleDst : HostAddr := {| host := "learner"; port := 9780 |}.

Definition ackResponse : Try SendSnapshotResponse :=
  TryValue {| error_code := SUCCEEDED |}.

Definition nackResponse : Try SendSnapshotResponse :=
  TryValue {| error_code := E_OTHER 17 |}.

Definition twoChunks : list Invocation :=
  [ {| data := ["row1"%string; "row2"%string]; totalCount := 2; totalSize := 8;
       status := MORE |};
    {| data := ["row3"%string]; totalCount := 3; totalSize := 12; status := DONE |} ].

(** Two chunks; the second send times out once; the committed position moves
    on while the transfer runs. *)
Definition flakyEnv : Env :=
  {| flags := defaultFlags;
     committedAt := fun t => (100 + Z.of_nat t, 5);
     iteration := fun _ _ => twoChunks;
     answerAt := fun i _ _ => if Nat.eqb i 1 then TryException "timeout" else ackResponse |}.

(** The receiver refuses the first chunk. *)
Definition refusingEnv : Env :=
  {| flags := defaultFlags;
     committedAt := fun t => (100 + Z.of_nat t, 5);
     iteration := fun _ _ => twoChunks;
     answerAt := fun _ _ _ => nackResponse |}.

(** The receiver cannot be reached. *)
Definition unreachableEnv : Env :=
  {| flags := defaultFlags;
     committedAt := fun t => (100 + Z.of_nat t, 5);
     iteration := fun _ _ => twoChunks;
     answerAt := fun _ _ _ => TryException "connection refused" |}.

(** The iteration fails after the first chunk. *)
Definition failingIterationEnv : Env :=
  {| flags := defaultFlags;
     committedAt := fun t => (100 + Z.of_nat t, 5);
     iteration := fun _ _ =>
       [ {| data := ["row1"%string]; totalCount := 1; totalSize := 4; status := MORE |};
         {| data := []; totalCount := 1; totalSize := 4; status := FAILED |} ];
     answerAt := fun _ _ _ => ackResponse |}.

(** The flag set to zero: no attempt is allowed. *)
Definition noAttemptEnv : Env :=
  {| flags := {| snapshot_worker_threads := 4;
                 snapshot_io_threads := 4;
                 snapshot_send_retry_times := 0;
                 snapshot_send_timeout_ms := 60000 |};
     committedAt := fun t => (100 + Z.of_nat t, 5);
     iteration := fun _ _ => twoChunks;
     answerAt := fun _ _ _ => ackResponse |}.

End SnapshotManager.

(** * DivideZoneProcessor.cpp *)

Module DivideZoneProcessor.

(** The members of [nebula::cpp2::ErrorCode] this file names. *)
Inductive Code : Type :=
| SUCCEEDED
| E_ZONE_NOT_FOUND
| E_INVALID_PARM
| E_EXISTED
| E_KEY_NOT_FOUND.

Definition Code_eqb (a b : Code) : bool :=
  match a, b with
  | SUCCEEDED, SUCCEEDED => true
  | E_ZONE_NOT_FOUND, E_ZONE_NOT_FOUND => true
  | E_INVALID_PARM, E_INVALID_PARM => true
  | E_EXISTED, E_EXISTED => true
  | E_KEY_NOT_FOUND, E_KEY_NOT_FOUND => true
  | _, _ => false
  end.

(** [ErrorOr<ErrorCode, T>]: [nebula::ok] holds of the right side. *)
Definition ErrorOr (T : Type) : Type := (Code + T)%type.

Definition isOk {T} (r : ErrorOr T) : bool :=
  match r with inr _ => true | inl _ => false end.

(** [operator==] of [HostAddr]. *)
Definition HostAddr_eqb (a b : HostAddr) : bool :=
  String.eqb (host a) (host b) && Z.eqb (port a) (port b).

(** The fields of [cpp2::SpaceDesc] the upgrade of a space keeps. *)
Record SpaceDesc : Type := mkSpaceDesc {
  space_name : string;
  partition_num : Z;
  replica_factor : Z;
  zone_names : list string
}.

(** [properties.zone_names_ref() = zones] *)
Definition withZoneNames (properties : SpaceDesc) (zones : list string) : SpaceDesc :=
  {| space_name := space_name properties;
     partition_num := partition_num properties;
     replica_factor := replica_factor properties;
     zone_names := zones |}.

(** [zone_items] in its iteration order. *)
Record DivideZoneReq : Type := mkDivideZoneReq {
  zone_name : string;
  zone_items : list (string * list HostAddr)
}.

(** What a [kvstore::BatchHolder] collects, in order. *)
Inductive BatchOp : Type :=
| BatchPut (key val : string)
| BatchRemove (key : string).

(** How [process] ends: with [handleErrorCode(code); onFinished()], or by
    handing the batch to [doBatchOperation]. *)
Inductive Outcome : Type :=
| Finished (code : Code)
| BatchSubmitted (batch : list BatchOp).

(** What the processor consumes from outside this file: the key and value
    encodings of [MetaKeyUtils], and the reads of the meta store (the
    processor holds the zone and space locks, so the store does not change
    while it runs). *)
Record Env : Type := mkEnv {
  zoneKey : string -> string;
  zoneVal : list HostAddr -> string;
  parseZoneHosts : string -> list HostAddr;
  spacePrefix : string;
  spaceId : string -> GraphSpaceID;
  parseSpace : string -> SpaceDesc;
  spaceKey : GraphSpaceID -> string;
  spaceVal : SpaceDesc -> string;
  (* [BaseProcessor::doGet] *)
  doGet : string -> ErrorOr string;
  (* [BaseProcessor::doPrefix]: the pairs the iterator visits *)
  doPrefix : string -> ErrorOr (list (string * string))
}.

(** [std::unique(hosts.begin(), hosts.end()) != hosts.end()]: some element
    equals the one right before it. *)
Fixpoint hasAdjacentDuplicate (hosts : list HostAddr) : bool :=
  match hosts with
  | a :: tl =>
      match tl with
      | b :: _ => HostAddr_eqb a b || hasAdjacentDuplicate tl
      | [] => false
      end
  | [] => false
  end.

(** Insertion into the [std::unordered_set<HostAddr>]; the list holds the
    members, each once. *)
Definition insertHost (set : list HostAddr) (h : HostAddr) : list HostAddr :=
  if existsb (HostAddr_eqb h) set then set else set ++ [h].

(** [std::copy(hosts.begin(), hosts.end(), std::inserter(totalHosts, ...))] *)
Definition insertHosts (set : list HostAddr) (hosts : list HostAddr) : list HostAddr :=
  fold_left insertHost hosts set.

(** [zones.erase(it)] for [it] the first position of [name]. *)
Fixpoint eraseFirst (name : string) (zones : list string) : list string :=
  match zones with
  | [] => []
  | z :: rest => if String.eqb z name then rest else z :: eraseFirst name rest
  end.

(** The variables the first loop of [process] updates. *)
Record LoopState : Type := mkLoopState {
  zoneNames : list string;
  totalHosts : list HostAddr;
  batchHolder : list BatchOp;
  code : Code
}.

Definition withCode (st : LoopState) (c : Code) : LoopState :=
  {| zoneNames := zoneNames st; totalHosts := totalHosts st;
     batchHolder := batchHolder st; code := c |}.

Section Processor.
Variable env : Env.

(** The loop over [zoneItems]; a [break] is a return of the state. *)
Fixpoint itemsLoop (zoneItems : list (string * list HostAddr)) (st : LoopState)
  : LoopState :=
  match zoneItems with
  | [] => st
  | (zone, hosts) :: rest =>
      if isOk (doGet env (zoneKey env zone)) then
        withCode st E_EXISTED
      else if existsb (String.eqb zone) (zoneNames st) then
        withCode st E_INVALID_PARM
      else
        let st1 :=
          {| zoneNames := zoneNames st ++ [zone]; totalHosts := totalHosts st;
             batchHolder := batchHolder st; code := code st |} in
        let st2 :=
          match hosts with
          | [] => withCode st1 E_INVALID_PARM
          | _ :: _ => st1
          end in
        if hasAdjacentDuplicate hosts then
          withCode st2 E_INVALID_PARM
        else
          itemsLoop rest
            {| zoneNames := zoneNames st2;
               totalHosts := insertHosts (totalHosts st2) hosts;
               batchHolder :=
                 batchHolder st2 ++ [BatchPut (zoneKey env zone) (zoneVal env hosts)];
               code := code st2 |}
  end.

(** The loop over [totalHosts], entered with [code]. *)
Fixpoint hostsLoop (hosts zoneHosts : list HostAddr) (code : Code) : Code :=
  match hosts with
  | [] => code
  | host :: rest =>
      if existsb (HostAddr_eqb host) zoneHosts then hostsLoop rest zoneHosts code
      else E_INVALID_PARM
  end.

(** The [while (iter->valid())] loop of [updateSpacesZone]. *)
Fixpoint spacesLoop (kvs : list (string * string)) (originalZoneName : string)
  (newZoneNames : list string) (batch : list BatchOp) : list BatchOp :=
  match kvs with
  | [] => batch
  | (key, val) :: rest =>
      let id := spaceId env key in
      let properties := parseSpace env val in
      let zones := zone_names properties in
      if existsb (String.eqb originalZoneName) zones then
        let zones' := eraseFirst originalZoneName zones ++ newZoneNames in
        let properties' := withZoneNames properties zones' in
        spacesLoop rest originalZoneName newZoneNames
          (batch ++ [BatchPut (spaceKey env id) (spaceVal env properties')])
      else
        spacesLoop rest originalZoneName newZoneNames batch
  end.

(** [updateSpacesZone(batchHolder, originalZoneName, zoneNames)]: the code it
    returns and the batch it leaves. *)
Definition updateSpacesZone (batch : list BatchOp) (originalZoneName : string)
  (newZoneNames : list string) : Code * list BatchOp :=
  match doPrefix env (spacePrefix env) with
  | inl _ => (E_KEY_NOT_FOUND, batch)
  | inr kvs => (SUCCEEDED, spacesLoop kvs originalZoneName newZoneNames batch)
  end.

Definition process (req : DivideZoneReq) : Outcome :=
  let zoneName := zone_name req in
  let zoneKey0 := zoneKey env zoneName in
  match doGet env zoneKey0 with
  | inl _ => Finished E_ZONE_NOT_FOUND
  | inr zoneValue =>
      let zoneItems := zone_items req in
      let zoneHosts := parseZoneHosts env zoneValue in
      if Nat.ltb (length zoneHosts) (length zoneItems) then
        Finished E_INVALID_PARM
      else
        let st :=
          itemsLoop zoneItems
            {| zoneNames := []; totalHosts := []; batchHolder := [];
               code := SUCCEEDED |} in
        if negb (Code_eqb (code st) SUCCEEDED) then
          Finished (code st)
        else if negb (Nat.eqb (length (totalHosts st)) (length zoneHosts)) then
          Finished E_INVALID_PARM
        else
          let code2 := hostsLoop (totalHosts st) zoneHosts (code st) in
          if negb (Code_eqb code2 SUCCEEDED) then
            Finished code2
          else
            let batch := batchHolder st ++ [BatchRemove zoneKey0] in
            let (code3, batch') := updateSpacesZone batch zoneName (zoneNames st) in
            if negb (Code_eqb code3 SUCCEEDED) then Finished code3
            else BatchSubmitted batch'
  end.

End Processor.

(** ** What the request asks for *)

(** The hosts named in the items, each once. *)
Definition hostsOfItems (items : list (string * list HostAddr)) : list HostAddr :=
  insertHosts [] (concat (map snd items)).

(** The puts of the new zones, in the order of the items. *)
Definition zonePuts (env : Env) (items : list (string * list HostAddr)) : list BatchOp :=
  map (fun item => BatchPut (zoneKey env (fst item)) (zoneVal env (snd item))) items.

(** The puts of the spaces that list the original zone. *)
Definition spacePuts (env : Env) (kvs : list (string * string))
  (originalZoneName : string) (newZoneNames : list string) : list BatchOp :=
  flat_map
    (fun kv =>
       let properties := parseSpace env (snd kv) in
       if existsb (String.eqb originalZoneName) (zone_names properties) then
         [BatchPut (spaceKey env (spaceId env (fst kv)))
            (spaceVal env
               (withZoneNames properties
                  (eraseFirst originalZoneName (zone_names properties)
                   ++ newZoneNames)))]
       else [])
    kvs.

(** What the first loop requires of the items, given the zone names seen
    before: no new zone exists already, every list of hosts is non-empty and
    has no two equal neighbours, and no name comes twice. *)
Definition itemsAccepted (env : Env) (seen : list string)
  (items : list (string * list HostAddr)) : Prop :=
  (forall zone hosts,
     In (zone, hosts) items ->
     isOk (doGet env (zoneKey env zone)) = false /\
     hosts <> [] /\
     hasAdjacentDuplicate hosts = false) /\
  NoDup (map fst items) /\
  (forall zone, In zone (map fst items) -> ~ In zone seen).

(** ** Sample store *)

Definition hostX : HostAddr := {| host := "10.0.0.1"; port := 9779 |}.
Definition hostY : HostAddr := {| host := "10.0.0.2"; port := 9779 |}.
Definition hostZ : HostAddr := {| host := "10.0.0.3"; port := 9779 |}.

(** A store with one zone, "z0", of three hosts (values are kept as the
    zone name itself and decoded by table), and one space, listing "z0". *)
Definition sampleEnv : Env :=
  {| zoneKey := fun name => String.append "__zones__" name;
     zoneVal := fun hosts => String.concat "," (map host hosts);
     parseZoneHosts := fun _ => [hostX; hostY; hostZ];
     spacePrefix := "__spaces__";
     spaceId := fun _ => 1%Z;
     parseSpace := fun _ =>
       {| space_name := "s1"; partition_num := 10; replica_factor := 3;
          zone_names := ["z0"%string; "z9"%string] |};
     spaceKey := fun _ => "__spaces__1"%string;
     spaceVal := fun d => String.concat "," (zone_names d);
     doGet := fun key =>
       if String.eqb key "__zones__z0" then inr "hosts-of-z0"%string
       else inl E_KEY_NOT_FOUND;
     doPrefix := fun _ => inr [("__spaces__1"%string, "s1"%string)] |}.

(** "z0" divided into "za" (two hosts) and "zb" (one host). *)
Definition sampleReq : DivideZoneReq :=
  {| zone_name := "z0";
     zone_items := [("za"%string, [hostX; hostY]); ("zb"%string, [hostZ])] |}.

(** The same, with [hostY] placed in both new zones. *)
Definition overlappingReq : DivideZoneReq :=
  {| zone_name := "z0";
     zone_items := [("za"%string, [hostX; hostY]); ("zb"%string, [hostY; hostZ])] |}.

End DivideZoneProcessor.

(** * Facts about the chain-write client *)

Module ChainFacts.
Import InternalStorageClient.
Local Open Scope nat_scope.

Lemma ErrorCode_eqb_eq (a b : ErrorCode) : ErrorCode_eqb a b = true <-> a = b.
Proof.
  split.
  - destruct a, b; simpl; try discriminate; try reflexivity.
    intro H. apply Z.eqb_eq in H. now subst.
  - intros <-. destruct a; simpl; try reflexivity. apply Z.eqb_refl.
Qed.

Lemma ErrorCode_eqb_neq (a b : ErrorCode) : ErrorCode_eqb a b = false <-> a <> b.
Proof.
  rewrite <- ErrorCode_eqb_eq. destruct (ErrorCode_eqb a b); split; intro H;
    try reflexivity; try discriminate; try easy.
Qed.

Lemma ErrorCode_eq_dec (a b : ErrorCode) : {a = b} + {a <> b}.
Proof.
  destruct (ErrorCode_eqb a b) eqn:E.
  - left. now apply ErrorCode_eqb_eq.
  - right. now apply ErrorCode_eqb_neq.
Qed.

(** ** Each operation is the shared loop *)

Lemma invoke_chainLoop (env : Env) (op : ChainOp) (pid : PartitionID) :
  opPart op = Some pid ->
  forall fuel evb w,
    invoke env fuel op evb w = chainLoop env fuel (opSpace op) pid (opWire op) evb w.
Proof.
  intros Hp fuel.
  destruct op as [r t v | r t v | r x t]; simpl in Hp |- *.
  - injection Hp as <-.
    induction fuel as [| fuel IH]; intros evb w; [reflexivity |].
    simpl. unfold bind, getLeader, getResponse, sleep_for.
    destruct (leaderAt env (lookups w) _ _); [| reflexivity].
    destruct v; simpl;
      match goal with |- context [ErrorCode_eqb ?c _] => destruct (ErrorCode_eqb c _) end;
      try reflexivity; apply IH.
  - destruct (AddEdgesRequest.parts r) as [| [p es] rest] eqn:Hparts; [discriminate |].
    injection Hp as ->.
    induction fuel as [| fuel IH]; intros evb w; [reflexivity |].
    simpl. rewrite Hparts. unfold makeChainAddReq. rewrite Hparts.
    unfold bind, getLeader, getResponse, sleep_for. simpl.
    destruct (leaderAt env (lookups w) _ _); [| reflexivity].
    destruct v; simpl;
      match goal with |- context [ErrorCode_eqb ?c _] => destruct (ErrorCode_eqb c _) end;
      try reflexivity; apply IH.
  - destruct (DeleteEdgesRequest.parts r) as [| [p es] rest] eqn:Hparts; [discriminate |].
    injection Hp as ->.
    induction fuel as [| fuel IH]; intros evb w; [reflexivity |].
    simpl. rewrite Hparts.
    unfold bind, getLeader, getResponse, sleep_for. simpl.
    destruct (leaderAt env (lookups w) _ _); [| reflexivity].
    simpl;
      match goal with |- context [ErrorCode_eqb ?c _] => destruct (ErrorCode_eqb c _) end;
      try reflexivity; apply IH.
Qed.

(** An operation whose request has no partition dereferences [begin()] of an
    empty map before it does anything else. *)
Lemma invoke_no_partition (env : Env) (op : ChainOp) :
  opPart op = None ->
  forall fuel evb w, invoke env (S fuel) op evb w = (Stop UndefinedBehaviour, w).
Proof.
  intros Hp fuel evb w.
  destruct op as [r t v | r t v | r x t]; simpl in Hp.
  - discriminate.
  - destruct (AddEdgesRequest.parts r) as [| [p es] rest] eqn:Hparts; [| discriminate].
    simpl. rewrite Hparts. reflexivity.
  - destruct (DeleteEdgesRequest.parts r) as [| [p es] rest] eqn:Hparts; [| discriminate].
    simpl. rewrite Hparts. reflexivity.
Qed.


(** ** The internal port *)

Lemma int32_range (z : Z) : (-2147483648 <= int32 z < 2147483648)%Z.
Proof.
  unfold int32.
  pose proof (Z.mod_pos_bound (z + 2147483648) 4294967296 eq_refl). lia.
Qed.

Lemma int32_exact (z : Z) :
  (-2147483648 <= z < 2147483648)%Z -> int32 z = z.
Proof.
  intro Hz. unfold int32. rewrite Z.mod_small by lia. lia.
Qed.

(** The port a request is sent to is always a 32-bit value; it is the sum of
    the leader's port and the offset when that sum is one. *)
Lemma toInternal_port (env : Env) (l : HostAddr) :
  host (toInternal env l) = host l /\
  (-2147483648 <= port (toInternal env l) < 2147483648)%Z /\
  ((-2147483648 <= port l + kInternalPortOffset env < 2147483648)%Z ->
   port (toInternal env l) = (port l + kInternalPortOffset env)%Z).
Proof.
  split; [reflexivity |]. split; [apply int32_range | apply int32_exact].
Qed.

(** With the offset -2, the internal port of a leader at port 9779 is 9777,
    and the one of a leader at port -2147483647 is 2147483647. *)
Example toInternal_wraps :
  port (toInternal churnEnv hostA) = 9777%Z /\
  port (toInternal churnEnv {| host := "storage-a"; port := -2147483647 |})
  = 2147483647%Z.
Proof. split; reflexivity. Qed.

(** ** One attempt of the shared loop *)

Section Loop.
Variable env : Env.
Variable space : GraphSpaceID.
Variable pid : PartitionID.
Variable q : ChainRequest.

Lemma chainLoop_lookup_failed fuel evb w s :
  leaderAt env (lookups w) space pid = StStatus s ->
  promise w = None ->
  chainLoop env (S fuel) space pid q evb w
  = (Val tt, fulfilled E_SPACE_NOT_FOUND (lookedUp space pid w)).
Proof.
  intros Hl Hp. simpl. unfold bind, getLeader. rewrite Hl.
  unfold setValue. simpl. rewrite Hp. reflexivity.
Qed.

Lemma chainLoop_terminal fuel evb w l c :
  leaderAt env (lookups w) space pid = StValue l ->
  getErrorCode (responseAt env (sends w) evb (toInternal env l) q) = c ->
  c <> E_LEADER_CHANGED ->
  promise w = None ->
  chainLoop env (S fuel) space pid q evb w
  = (Val tt, fulfilled c (sent evb (toInternal env l) q (lookedUp space pid w))).
Proof.
  intros Hl Hc Hne Hp. simpl. unfold bind, getLeader, getResponse. rewrite Hl.
  simpl. rewrite Hc.
  apply ErrorCode_eqb_neq in Hne. rewrite Hne.
  unfold setValue. simpl. rewrite Hp. reflexivity.
Qed.

Lemma chainLoop_retry fuel evb w l :
  leaderAt env (lookups w) space pid = StValue l ->
  getErrorCode (responseAt env (sends w) evb (toInternal env l) q) = E_LEADER_CHANGED ->
  chainLoop env (S fuel) space pid q evb w
  = chainLoop env fuel space pid q (evbDefault env)
      (emit (EvSleep 500) (sent evb (toInternal env l) q (lookedUp space pid w))).
Proof.
  intros Hl Hc. simpl. unfold bind, getLeader, getResponse, sleep_for. rewrite Hl.
  simpl. rewrite Hc. reflexivity.
Qed.

(** An attempt retries exactly when its lookup succeeds and the answer maps
    to [E_LEADER_CHANGED]. *)
Lemma attemptCode_leader_changed evb L K i :
  attemptCode env space pid q evb L K i = E_LEADER_CHANGED ->
  exists l,
    leaderAt env (L + i) space pid = StValue l /\
    getErrorCode (responseAt env (K + i) (attemptEvb env evb i) (toInternal env l) q)
    = E_LEADER_CHANGED.
Proof.
  unfold attemptCode. destruct (leaderAt env (L + i) space pid) as [l | s].
  - intro H. now exists l.
  - discriminate.
Qed.

Lemma attemptCode_shift evb L K i :
  attemptCode env space pid q (evbDefault env) (S L) (S K) i
  = attemptCode env space pid q evb L K (S i).
Proof.
  unfold attemptCode. rewrite !Nat.add_succ_r. simpl. now destruct i.
Qed.

Lemma attemptEvents_shift evb L K i :
  attemptEvents env space pid q (evbDefault env) (S L) (S K) i
  = attemptEvents env space pid q evb L K (S i).
Proof.
  unfold attemptEvents. rewrite !Nat.add_succ_r. simpl. now destruct i.
Qed.

Lemma retryEvents_S evb L K n :
  retryEvents env space pid q evb L K (S n)
  = (attemptEvents env space pid q evb L K 0 ++ [EvSleep 500])
    ++ retryEvents env space pid q (evbDefault env) (S L) (S K) n.
Proof.
  unfold retryEvents. simpl seq. rewrite <- seq_shift. simpl flat_map.
  f_equal. rewrite flat_map_concat_map, map_map, <- flat_map_concat_map.
  apply flat_map_ext. intro i. now rewrite (attemptEvents_shift evb).
Qed.

Lemma retryEvents_snoc evb L K n :
  retryEvents env space pid q evb L K (S n)
  = retryEvents env space pid q evb L K n
    ++ attemptEvents env space pid q evb L K n ++ [EvSleep 500].
Proof.
  unfold retryEvents. rewrite seq_S, flat_map_app. simpl. now rewrite app_nil_r.
Qed.

(** ** A run of retries that ends *)

(** If attempts [0 .. N-1] all end with [E_LEADER_CHANGED] and attempt [N]
    ends with another code [c], then, given fuel for [N + 1] attempts, the
    loop returns, having made [N + 1] lookups, slept after each of the first
    [N] attempts, and fulfilled the promise once, with [c]. *)
Lemma chainLoop_run N :
  forall fuel evb w c,
    promise w = None ->
    N < fuel ->
    (forall i, i < N ->
       attemptCode env space pid q evb (lookups w) (sends w) i = E_LEADER_CHANGED) ->
    attemptCode env space pid q evb (lookups w) (sends w) N = c ->
    c <> E_LEADER_CHANGED ->
    chainLoop env fuel space pid q evb w
    = (Val tt,
       {| promise := Some c;
          lookups := lookups w + S N;
          sends := sends w + N
                   + (if ok (leaderAt env (lookups w + N) space pid) then 1 else 0);
          trace := trace w
                   ++ retryEvents env space pid q evb (lookups w) (sends w) N
                   ++ attemptEvents env space pid q evb (lookups w) (sends w) N
                   ++ [EvSetValue c] |}).
Proof.
  induction N as [| N IH]; intros fuel evb w c Hp Hf Hretry Hc Hne.
  - destruct fuel as [| fuel]; [lia |].
    clear Hretry. unfold attemptCode in Hc. unfold attemptEvents.
    rewrite !Nat.add_0_r in Hc. rewrite !Nat.add_0_r. simpl attemptEvb in Hc.
    destruct (leaderAt env (lookups w) space pid) as [l | s] eqn:Hl.
    + rewrite (chainLoop_terminal fuel evb w Hl Hc Hne Hp).
      unfold fulfilled, sent, lookedUp. simpl.
      f_equal. f_equal; try lia. now rewrite <- !app_assoc.
    + subst c. rewrite (chainLoop_lookup_failed fuel evb w Hl Hp).
      unfold fulfilled, lookedUp. simpl.
      f_equal. f_equal; try lia. now rewrite <- !app_assoc.
  - destruct fuel as [| fuel]; [lia |].
    destruct (attemptCode_leader_changed evb (lookups w) (sends w) 0
                (Hretry 0%nat ltac:(lia))) as [l [Hl Hc0]].
    rewrite Nat.add_0_r in Hl, Hc0. simpl in Hc0.
    rewrite (chainLoop_retry fuel evb w Hl Hc0).
    rewrite (IH fuel (evbDefault env) _ c).
    + simpl. f_equal. f_equal; try lia.
      * rewrite !Nat.add_succ_r. simpl. reflexivity.
      * rewrite retryEvents_S, (attemptEvents_shift evb).
        assert (H0 : attemptEvents env space pid q evb (lookups w) (sends w) 0
                     = [EvGetLeader space pid; EvSend evb (toInternal env l) q]).
        { unfold attemptEvents. now rewrite Nat.add_0_r, Hl. }
        rewrite H0. simpl. now rewrite <- !app_assoc.
    + exact Hp.
    + lia.
    + intros i Hi. simpl. rewrite (attemptCode_shift evb). apply Hretry. lia.
    + simpl. now rewrite (attemptCode_shift evb).
    + exact Hne.
Qed.


(** ** Counting the events of the retried attempts *)

Lemma lookupsOf_app a b : lookupsOf (a ++ b) = lookupsOf a ++ lookupsOf b.
Proof. apply flat_map_app. Qed.

Lemma sendsOf_app a b : sendsOf (a ++ b) = sendsOf a ++ sendsOf b.
Proof. apply flat_map_app. Qed.

Lemma sleepsOf_app a b : sleepsOf (a ++ b) = sleepsOf a ++ sleepsOf b.
Proof. apply flat_map_app. Qed.

Lemma resolutionsOf_app a b : resolutionsOf (a ++ b) = resolutionsOf a ++ resolutionsOf b.
Proof. apply flat_map_app. Qed.

Lemma attemptEvents_resolved evb L K i l :
  leaderAt env (L + i) space pid = StValue l ->
  attemptEvents env space pid q evb L K i
  = [EvGetLeader space pid; EvSend (attemptEvb env evb i) (toInternal env l) q].
Proof. intro H. unfold attemptEvents. now rewrite H. Qed.

Lemma retryEvents_counts evb L K N :
  (forall i, i < N -> exists l, leaderAt env (L + i) space pid = StValue l) ->
  lookupsOf (retryEvents env space pid q evb L K N) = repeat (space, pid) N /\
  length (sendsOf (retryEvents env space pid q evb L K N)) = N /\
  sleepsOf (retryEvents env space pid q evb L K N) = repeat 500%Z N /\
  resolutionsOf (retryEvents env space pid q evb L K N) = [].
Proof.
  induction N as [| N IH]; intro Hok.
  - repeat split.
  - destruct IH as (Hl & Hs & Hz & Hr); [intros i Hi; apply Hok; lia |].
    destruct (Hok N ltac:(lia)) as [l Hlead].
    rewrite retryEvents_snoc, (attemptEvents_resolved evb L K N Hlead).
    rewrite lookupsOf_app, sendsOf_app, sleepsOf_app, resolutionsOf_app.
    rewrite Hl, Hz, Hr. simpl. rewrite length_app, Hs. simpl.
    repeat split; try lia; now rewrite <- repeat_cons.
Qed.

Lemma retryEvents_send evb L K N :
  (forall i, i < N -> exists l, leaderAt env (L + i) space pid = StValue l) ->
  forall i l,
    i < N ->
    leaderAt env (L + i) space pid = StValue l ->
    nth_error (sendsOf (retryEvents env space pid q evb L K N)) i
    = Some (attemptEvb env evb i, toInternal env l, q).
Proof.
  induction N as [| N IH]; intros Hok i l Hi Hlead; [lia |].
  assert (Hok' : forall j, j < N -> exists l, leaderAt env (L + j) space pid = StValue l)
    by (intros j Hj; apply Hok; lia).
  destruct (retryEvents_counts evb L K Hok') as (_ & Hlen & _).
  destruct (Hok N ltac:(lia)) as [lN HleadN].
  rewrite retryEvents_snoc, (attemptEvents_resolved evb L K N HleadN), sendsOf_app.
  destruct (Nat.eq_dec i N) as [-> | Hne].
  - rewrite nth_error_app2 by lia. rewrite Hlen, Nat.sub_diag. simpl.
    rewrite HleadN in Hlead. now injection Hlead as ->.
  - rewrite nth_error_app1 by lia. apply IH; auto. lia.
Qed.


(** ** What every run looks like, whether it ends or not *)

(** Whatever the environment answers and however far the run gets, the loop
    only ever asks for the leader of ([space], [pid]), only ever sends [q],
    and sends it to the internal port of a leader the lookup returned; the
    first send uses the caller's event base and every later one the default;
    the promise is fulfilled at most once. *)
Lemma chainLoop_shape fuel :
  forall evb w,
  exists ext,
    trace (snd (chainLoop env fuel space pid q evb w)) = trace w ++ ext /\
    Forall (eq (space, pid)) (lookupsOf ext) /\
    Forall (fun s => snd s = q /\
                     exists i l, leaderAt env i space pid = StValue l /\
                                 snd (fst s) = toInternal env l)
           (sendsOf ext) /\
    (sendsOf ext = [] \/
     exists n, map (fun s => fst (fst s)) (sendsOf ext) = evb :: repeat (evbDefault env) n) /\
    length (resolutionsOf ext) <= 1.
Proof.
  induction fuel as [| fuel IH]; intros evb w.
  - exists []. simpl. rewrite app_nil_r. repeat split; auto.
  - simpl. unfold bind, getLeader, getResponse, sleep_for, setValue.
    destruct (leaderAt env (lookups w) space pid) as [l | s] eqn:Hl.
    + simpl.
      assert (Hsend : (fun s : EventBasePtr * HostAddr * ChainRequest =>
                snd s = q /\
                exists i l0, leaderAt env i space pid = StValue l0 /\
                             snd (fst s) = toInternal env l0)
               (evb, toInternal env l, q)).
      { split; [reflexivity |]. exists (lookups w), l. now split. }
      destruct (ErrorCode_eqb _ E_LEADER_CHANGED).
      * destruct (IH (evbDefault env)
                    (emit (EvSleep 500) (sent evb (toInternal env l) q (lookedUp space pid w))))
          as (ext & Htr & Hlk & Hsd & Hevb & Hres).
        exists ([EvGetLeader space pid; EvSend evb (toInternal env l) q; EvSleep 500] ++ ext).
        rewrite Htr. simpl. rewrite <- !app_assoc. simpl.
        repeat split; auto.
        right. destruct Hevb as [Hnil | [n Hn]].
        -- exists 0. now rewrite Hnil.
        -- exists (S n). simpl. now rewrite Hn.
      * simpl. destruct (promise w); simpl.
        -- exists [EvGetLeader space pid; EvSend evb (toInternal env l) q].
           rewrite <- !app_assoc. simpl. repeat split; auto.
           right. now exists 0.
        -- exists [EvGetLeader space pid; EvSend evb (toInternal env l) q;
                   EvSetValue (getErrorCode
                     (responseAt env (sends w) evb (toInternal env l) q))].
           rewrite <- !app_assoc. simpl. repeat split; auto.
           right. now exists 0.
    + simpl. destruct (promise w); simpl.
      * exists [EvGetLeader space pid]. simpl. repeat split; auto.
      * exists [EvGetLeader space pid; EvSetValue E_SPACE_NOT_FOUND].
        rewrite <- !app_assoc. simpl. repeat split; auto.
Qed.

(** An attempt begins with the lookup for ([space], [pid]); when the lookup
    returns a leader, the next thing it does is to send [q] to the internal
    port of that leader, with the event base it was called with. *)
Lemma chainLoop_first_attempt fuel evb w :
  exists ext,
    trace (snd (chainLoop env (S fuel) space pid q evb w))
    = trace w ++ EvGetLeader space pid :: ext /\
    (forall l,
       leaderAt env (lookups w) space pid = StValue l ->
       exists ext', ext = EvSend evb (toInternal env l) q :: ext') /\
    Forall (eq (space, pid)) (lookupsOf ext) /\
    Forall (fun s => snd s = q /\
                     exists i l, leaderAt env i space pid = StValue l /\
                                 snd (fst s) = toInternal env l)
           (sendsOf ext).
Proof.
  simpl. unfold bind, getLeader, getResponse, sleep_for, setValue.
  destruct (leaderAt env (lookups w) space pid) as [l | s] eqn:Hl.
  - simpl.
    assert (Hsend : (fun s : EventBasePtr * HostAddr * ChainRequest =>
              snd s = q /\
              exists i l0, leaderAt env i space pid = StValue l0 /\
                           snd (fst s) = toInternal env l0)
             (evb, toInternal env l, q)).
    { split; [reflexivity |]. exists (lookups w), l. now split. }
    destruct (ErrorCode_eqb _ E_LEADER_CHANGED).
    + destruct (chainLoop_shape fuel (evbDefault env)
                  (emit (EvSleep 500) (sent evb (toInternal env l) q (lookedUp space pid w))))
        as (ext & Htr & Hlk & Hsd & _).
      exists (EvSend evb (toInternal env l) q :: EvSleep 500 :: ext).
      rewrite Htr. simpl. rewrite <- !app_assoc. simpl.
      split; [reflexivity |]. split; [| split].
      * intros l0 H0. injection H0 as <-. eexists. reflexivity.
      * exact Hlk.
      * constructor; assumption.
    + simpl. destruct (promise w); simpl.
      * exists [EvSend evb (toInternal env l) q].
        rewrite <- !app_assoc. simpl.
        split; [reflexivity |]. split; [| split].
        -- intros l0 H0. injection H0 as <-. eexists. reflexivity.
        -- constructor.
        -- constructor; [exact Hsend | constructor].
      * exists [EvSend evb (toInternal env l) q;
                EvSetValue (getErrorCode
                  (responseAt env (sends w) evb (toInternal env l) q))].
        rewrite <- !app_assoc. simpl.
        split; [reflexivity |]. split; [| split].
        -- intros l0 H0. injection H0 as <-. eexists. reflexivity.
        -- constructor.
        -- constructor; [exact Hsend | constructor].
  - simpl. destruct (promise w); simpl.
    + exists []. split; [reflexivity |]. split; [| split].
      * intros l0 H0. discriminate.
      * constructor.
      * constructor.
    + exists [EvSetValue E_SPACE_NOT_FOUND].
      rewrite <- !app_assoc. simpl.
      split; [reflexivity |]. split; [| split].
      * intros l0 H0. discriminate.
      * constructor.
      * constructor.
Qed.

(** Some attempt within the fuel does not end with [E_LEADER_CHANGED]: then
    there is a first such attempt. *)
Lemma first_terminal_attempt evb L K k :
  attemptCode env space pid q evb L K k <> E_LEADER_CHANGED ->
  exists N,
    N <= k /\
    attemptCode env space pid q evb L K N <> E_LEADER_CHANGED /\
    forall i, i < N -> attemptCode env space pid q evb L K i = E_LEADER_CHANGED.
Proof.
  induction k as [k IH] using lt_wf_ind. intro Hk.
  assert (Hdec : (forall i, i < k ->
                    attemptCode env space pid q evb L K i = E_LEADER_CHANGED)
                 \/ exists i, i < k /\
                    attemptCode env space pid q evb L K i <> E_LEADER_CHANGED).
  { clear. induction k as [| k IHk].
    - left. intros i Hi. lia.
    - destruct IHk as [Hall | (i & Hi & Hne)].
      + destruct (ErrorCode_eq_dec (attemptCode env space pid q evb L K k)
                    E_LEADER_CHANGED) as [Heq | Hne].
        * left. intros i Hi. destruct (Nat.eq_dec i k) as [-> | Hik]; auto.
          apply Hall. lia.
        * right. exists k. split; [lia | exact Hne].
      + right. exists i. split; [lia | exact Hne]. }
  destruct Hdec as [Hall | (i & Hi & Hne)].
  - exists k. repeat split; auto.
  - destruct (IH i Hi Hne) as (N & HN & HNne & HNall).
    exists N. repeat split; auto. lia.
Qed.

End Loop.

(** ** The error-code helper *)

(** C1.  [getErrorCode] returns [E_RPC_FAILURE] when the transport produced
    no value; for a value whose status is not ok it returns
    [E_LEADER_CHANGED] when the status code is [kLeaderChanged] and
    [E_UNKNOWN] for every other status code; for an ok status it returns the
    code of the first entry of the failed-parts list when there is one, and
    [SUCCEEDED] when the list is empty. *)
Theorem getErrorCode_cases :
  (forall what, getErrorCode (TryException what) = E_RPC_FAILURE) /\
  (forall tryResp, hasValue tryResp = false -> getErrorCode tryResp = E_RPC_FAILURE) /\
  (forall st,
     code_of st = kLeaderChanged ->
     getErrorCode (TryValue (StStatus st)) = E_LEADER_CHANGED) /\
  (forall st,
     code_of st <> kLeaderChanged ->
     getErrorCode (TryValue (StStatus st)) = E_UNKNOWN) /\
  (forall resp p rest,
     failed_parts (result resp) = p :: rest ->
     getErrorCode (TryValue (StValue resp)) = code p) /\
  (forall resp,
     failed_parts (result resp) = [] ->
     getErrorCode (TryValue (StValue resp)) = SUCCEEDED).
Proof.
  repeat split.
  - intros [v | what] H; [discriminate | reflexivity].
  - intros st H. simpl. now rewrite H.
  - intros st H. simpl. destruct (code_of st); try reflexivity. now elim H.
  - intros resp p rest H. simpl. now rewrite H.
  - intros resp H. simpl. now rewrite H.
Qed.

Lemma getErrorCode_cases_witness :
  getErrorCode (TryException "timeout") = E_RPC_FAILURE /\
  getErrorCode leaderChangedResponse = E_LEADER_CHANGED /\
  getErrorCode okResponse = SUCCEEDED.
Proof.
  split; [| split].
  - exact (proj1 getErrorCode_cases "timeout"%string).
  - exact (proj1 (proj2 (proj2 getErrorCode_cases))
             {| code_of := kLeaderChanged; message := "leader changed" |} eq_refl).
  - exact (proj2 (proj2 (proj2 (proj2 (proj2 getErrorCode_cases))))
             {| result := {| failed_parts := []; latency_in_us := 0 |} |} eq_refl).
Defined.

(** ** Leader lookup failure *)

(** C3.  Whenever the leader lookup of an attempt fails (the first attempt
    or a retried one; the promise is still unfulfilled), the operation makes
    that one lookup, fulfils the promise with [E_SPACE_NOT_FOUND] and
    returns: no send, no second lookup. *)
Theorem lookup_failure_resolves (env : Env) (op : ChainOp) (pid : PartitionID)
  (evb : EventBasePtr) (fuel : nat) (w : World) (s : Status) :
  opPart op = Some pid ->
  promise w = None ->
  leaderAt env (lookups w) (opSpace op) pid = StStatus s ->
  invoke env (S fuel) op evb w
  = (Val tt,
     {| promise := Some E_SPACE_NOT_FOUND;
        lookups := S (lookups w);
        sends := sends w;
        trace := trace w ++ [EvGetLeader (opSpace op) pid;
                             EvSetValue E_SPACE_NOT_FOUND] |}).
Proof.
  intros Hpart Hp Hl.
  rewrite (invoke_chainLoop env op Hpart).
  rewrite (chainLoop_lookup_failed env (opSpace op) pid (opWire op) fuel evb w Hl Hp).
  unfold fulfilled, lookedUp. simpl. now rewrite <- app_assoc.
Qed.

Lemma lookup_failure_resolves_witness :
  invoke lostEnv 1 sampleUpdate (Some 4) fresh
  = (Val tt,
     {| promise := Some E_SPACE_NOT_FOUND; lookups := 1; sends := 0;
        trace := [EvGetLeader 1%Z 7%Z; EvSetValue E_SPACE_NOT_FOUND] |}) /\
  invoke lostEnv 1 sampleAdd (Some 4) fresh
  = (Val tt,
     {| promise := Some E_SPACE_NOT_FOUND; lookups := 1; sends := 0;
        trace := [EvGetLeader 1%Z 7%Z; EvSetValue E_SPACE_NOT_FOUND] |}) /\
  invoke lostEnv 1 sampleDelete (Some 4) fresh
  = (Val tt,
     {| promise := Some E_SPACE_NOT_FOUND; lookups := 1; sends := 0;
        trace := [EvGetLeader 1%Z 7%Z; EvSetValue E_SPACE_NOT_FOUND] |}).
Proof.
  split; [| split].
  - exact (lookup_failure_resolves lostEnv sampleUpdate (pid := 7%Z) (Some 4) 0 fresh
             eq_refl eq_refl eq_refl).
  - exact (lookup_failure_resolves lostEnv sampleAdd (pid := 7%Z) (Some 4) 0 fresh
             eq_refl eq_refl eq_refl).
  - exact (lookup_failure_resolves lostEnv sampleDelete (pid := 7%Z) (Some 4) 0 fresh
             eq_refl eq_refl eq_refl).
Defined.

(** ** Retrying across leadership changes *)

(** C2.  If the first [N] attempts of a chain operation are answered with a
    changed leader and attempt [N] with success, then, run for more than [N]
    attempts, the operation returns with the promise fulfilled once, with
    [SUCCEEDED], after exactly [N + 1] leader lookups and [N + 1] sends and
    [N] sleeps of 500 ms; attempt [i] sends to the internal port of the
    leader that its own lookup (number [i]) returned, and a retried
    attempt starts with its lookup right after the sleep. *)
Theorem leader_changed_retries (env : Env) (op : ChainOp) (pid : PartitionID)
  (evb : EventBasePtr) (N fuel : nat) :
  opPart op = Some pid ->
  N < fuel ->
  (forall i, i < N ->
     attemptCode env (opSpace op) pid (opWire op) evb 0 0 i = E_LEADER_CHANGED) ->
  attemptCode env (opSpace op) pid (opWire op) evb 0 0 N = SUCCEEDED ->
  exists w',
    invoke env fuel op evb fresh = (Val tt, w') /\
    promise w' = Some SUCCEEDED /\
    resolutionsOf (trace w') = [SUCCEEDED] /\
    lookups w' = N + 1 /\
    lookupsOf (trace w') = repeat (opSpace op, pid) (N + 1) /\
    sends w' = N + 1 /\
    length (sendsOf (trace w')) = N + 1 /\
    sleepsOf (trace w') = repeat 500%Z N /\
    trace w' = retryEvents env (opSpace op) pid (opWire op) evb 0 0 N
               ++ attemptEvents env (opSpace op) pid (opWire op) evb 0 0 N
               ++ [EvSetValue SUCCEEDED] /\
    forall i, i <= N ->
      exists l,
        leaderAt env i (opSpace op) pid = StValue l /\
        nth_error (sendsOf (trace w')) i
        = Some (attemptEvb env evb i, toInternal env l, opWire op).
Proof.
  intros Hpart Hfuel Hretry Hlast.
  assert (Hok : forall i, i < S N -> exists l, leaderAt env (0 + i) (opSpace op) pid = StValue l).
  { intros i Hi. destruct (Nat.eq_dec i N) as [-> | Hne].
    - unfold attemptCode in Hlast.
      destruct (leaderAt env (0 + N) (opSpace op) pid) as [l | st]; [now exists l | discriminate].
    - destruct (attemptCode_leader_changed env (opSpace op) pid (opWire op) evb 0 0 i
                  (Hretry i ltac:(lia))) as [l [Hl _]].
      now exists l. }
  assert (Hok' : forall i, i < N -> exists l, leaderAt env (0 + i) (opSpace op) pid = StValue l)
    by (intros i Hi; apply Hok; lia).
  destruct (Hok N ltac:(lia)) as [lN HlN].
  destruct (retryEvents_counts env (opSpace op) pid (opWire op) evb 0 0 Hok') as (Hlk & Hsd & Hsl & Hrs).
  eexists. split.
  - rewrite (invoke_chainLoop env op Hpart).
    apply chainLoop_run;
      [reflexivity | exact Hfuel | exact Hretry | exact Hlast | discriminate].
  - simpl.
    rewrite (attemptEvents_resolved env (opSpace op) pid (opWire op) evb 0 0 N HlN).
    simpl in HlN. rewrite HlN. simpl.
    rewrite lookupsOf_app, sendsOf_app, sleepsOf_app, resolutionsOf_app.
    rewrite Hlk, Hsl, Hrs. simpl. rewrite length_app, Hsd. simpl.
    repeat split; try lia.
    + rewrite repeat_app. reflexivity.
    + now rewrite app_nil_r.
    + intros i Hi. destruct (Hok i ltac:(lia)) as [l Hl]. exists l. split; [exact Hl |].
      destruct (Nat.eq_dec i N) as [-> | Hne].
      * rewrite nth_error_app2 by lia. rewrite Hsd, Nat.sub_diag. simpl.
        simpl in Hl. rewrite HlN in Hl. now injection Hl as ->.
      * rewrite nth_error_app1 by lia.
        apply (retryEvents_send env (opSpace op) pid (opWire op) evb 0 0 Hok'); auto. lia.
Qed.

Lemma leader_changed_retries_witness :
  exists w',
    invoke churnEnv 3 sampleUpdate (Some 4) fresh = (Val tt, w') /\
    promise w' = Some SUCCEEDED /\
    lookups w' = 3 /\
    sends w' = 3 /\
    sleepsOf (trace w') = [500; 500]%Z.
Proof.
  destruct (leader_changed_retries churnEnv sampleUpdate (pid := 7%Z) (Some 4)
              (N := 2) (fuel := 3) eq_refl (le_n 3)) as (w' & Hrun & Hp & _ & Hl & _ & Hs & _ & Hz & _).
  - intros i Hi. destruct i as [| [| i]]; [reflexivity | reflexivity | lia].
  - reflexivity.
  - exists w'. repeat split; assumption.
Defined.

(** ** Which leader, which batch, which event base *)

Lemma invoke_shape (env : Env) (op : ChainOp) (fuel : nat) (evb : EventBasePtr)
  (w : World) (pid : PartitionID) :
  opPart op = Some pid ->
  exists ext,
    trace (snd (invoke env fuel op evb w)) = trace w ++ ext /\
    Forall (eq (opSpace op, pid)) (lookupsOf ext) /\
    Forall (fun s => snd s = opWire op /\
                     exists i l, leaderAt env i (opSpace op) pid = StValue l /\
                                 snd (fst s) = toInternal env l)
           (sendsOf ext) /\
    (sendsOf ext = [] \/
     exists n, map (fun s => fst (fst s)) (sendsOf ext) = evb :: repeat (evbDefault env) n) /\
    length (resolutionsOf ext) <= 1.
Proof.
  intro Hpart. rewrite (invoke_chainLoop env op Hpart). apply chainLoop_shape.
Qed.

Lemma invoke_nothing (env : Env) (op : ChainOp) (fuel : nat) (evb : EventBasePtr)
  (w : World) :
  opPart op = None ->
  trace (snd (invoke env fuel op evb w)) = trace w.
Proof.
  intro Hpart. destruct fuel as [| fuel].
  - now destruct op.
  - now rewrite (invoke_no_partition env op Hpart).
Qed.

Lemma invoke_first_attempt (env : Env) (op : ChainOp) (fuel : nat) (evb : EventBasePtr)
  (w : World) (pid : PartitionID) :
  opPart op = Some pid ->
  exists ext,
    trace (snd (invoke env (S fuel) op evb w))
    = trace w ++ EvGetLeader (opSpace op) pid :: ext /\
    (forall l,
       leaderAt env (lookups w) (opSpace op) pid = StValue l ->
       exists ext', ext = EvSend evb (toInternal env l) (opWire op) :: ext') /\
    Forall (eq (opSpace op, pid)) (lookupsOf ext) /\
    Forall (fun s => snd s = opWire op /\
                     exists i l, leaderAt env i (opSpace op) pid = StValue l /\
                                 snd (fst s) = toInternal env l)
           (sendsOf ext).
Proof.
  intro Hpart. rewrite (invoke_chainLoop env op Hpart). apply chainLoop_first_attempt.
Qed.

Lemma opWire_add (r : AddEdgesRequest.t) (t : TermID) (v : option Z) :
  opWire (AddEdges r t v) = CallChainAddEdges (makeChainAddReq r t v).
Proof. now destruct v. Qed.

(** C9.  [chainAddEdges] and [chainDeleteEdges] read the partition whose
    leader they ask for from the first entry of the request's parts map.
    On an empty map that read is undefined, and nothing else happens.  On a
    map whose first entry is for [pid], a call first asks for the leader of
    [pid]; when the lookup returns a leader, the next thing the call does is
    to send the chain request, which carries the whole parts map of the
    request, to the internal port of that leader; and whatever follows, every
    lookup is for [pid] alone, and every send carries the same request to the
    internal port of a leader that a lookup for [pid] returned. *)
Theorem batch_goes_to_first_partition_leader (env : Env) :
  (forall fuel r t v evb w,
     AddEdgesRequest.parts r = [] ->
     chainAddEdges env (S fuel) r t v evb w = (Stop UndefinedBehaviour, w)) /\
  (forall fuel r x t evb w,
     DeleteEdgesRequest.parts r = [] ->
     chainDeleteEdges env (S fuel) r x t evb w = (Stop UndefinedBehaviour, w)) /\
  (forall fuel r t v evb w pid es rest,
     AddEdgesRequest.parts r = (pid, es) :: rest ->
     let q := CallChainAddEdges (makeChainAddReq r t v) in
     wireParts q = pid :: map fst rest /\
     exists ext,
       trace (snd (chainAddEdges env (S fuel) r t v evb w))
       = trace w ++ EvGetLeader (AddEdgesRequest.space_id r) pid :: ext /\
       (forall l,
          leaderAt env (lookups w) (AddEdgesRequest.space_id r) pid = StValue l ->
          exists ext', ext = EvSend evb (toInternal env l) q :: ext') /\
       Forall (eq (AddEdgesRequest.space_id r, pid)) (lookupsOf ext) /\
       Forall (fun s =>
                 snd s = q /\
                 exists i l,
                   leaderAt env i (AddEdgesRequest.space_id r) pid = StValue l /\
                   snd (fst s) = toInternal env l)
              (sendsOf ext)) /\
  (forall fuel r x t evb w pid es rest,
     DeleteEdgesRequest.parts r = (pid, es) :: rest ->
     let q :=
       CallChainDeleteEdges
         {| ChainDeleteEdgesRequest.space_id := DeleteEdgesRequest.space_id r;
            ChainDeleteEdgesRequest.parts := DeleteEdgesRequest.parts r;
            ChainDeleteEdgesRequest.txn_id := x;
            ChainDeleteEdgesRequest.term := t |} in
     wireParts q = pid :: map fst rest /\
     exists ext,
       trace (snd (chainDeleteEdges env (S fuel) r x t evb w))
       = trace w ++ EvGetLeader (DeleteEdgesRequest.space_id r) pid :: ext /\
       (forall l,
          leaderAt env (lookups w) (DeleteEdgesRequest.space_id r) pid = StValue l ->
          exists ext', ext = EvSend evb (toInternal env l) q :: ext') /\
       Forall (eq (DeleteEdgesRequest.space_id r, pid)) (lookupsOf ext) /\
       Forall (fun s =>
                 snd s = q /\
                 exists i l,
                   leaderAt env i (DeleteEdgesRequest.space_id r) pid = StValue l /\
                   snd (fst s) = toInternal env l)
              (sendsOf ext)).
Proof.
  split; [| split; [| split]].
  - intros fuel r t v evb w Hparts.
    apply (invoke_no_partition env (AddEdges r t v)). simpl. now rewrite Hparts.
  - intros fuel r x t evb w Hparts.
    apply (invoke_no_partition env (DeleteEdges r x t)). simpl. now rewrite Hparts.
  - intros fuel r t v evb w pid es rest Hparts q. split.
    { unfold q. simpl. now rewrite Hparts. }
    destruct (@invoke_first_attempt env (AddEdges r t v) fuel evb w pid)
      as (ext & Htr & Hfirst & Hlk & Hsd); [simpl; now rewrite Hparts |].
    rewrite opWire_add in Hfirst, Hsd.
    exists ext. split; [exact Htr |]. split; [exact Hfirst |].
    split; [exact Hlk | exact Hsd].
  - intros fuel r x t evb w pid es rest Hparts q. split.
    { unfold q. simpl. now rewrite Hparts. }
    destruct (@invoke_first_attempt env (DeleteEdges r x t) fuel evb w pid)
      as (ext & Htr & Hfirst & Hlk & Hsd); [simpl; now rewrite Hparts |].
    exists ext. split; [exact Htr |]. split; [exact Hfirst |].
    split; [exact Hlk | exact Hsd].
Qed.

Lemma batch_goes_to_first_partition_leader_witness :
  chainAddEdges churnEnv 1 emptyAddReq 3%Z None (Some 4) fresh
  = (Stop UndefinedBehaviour, fresh) /\
  exists ext',
    trace (snd (chainDeleteEdges churnEnv 3 sampleDeleteReq "txn-1" 3%Z (Some 4) fresh))
    = EvGetLeader 1%Z 7%Z
      :: EvSend (Some 4) {| host := "storage-a"; port := 9777 |}
           (opWire sampleDelete)
      :: ext' /\
    wireParts (opWire sampleDelete) = [7%Z; 9%Z].
Proof.
  split.
  - exact (proj1 (batch_goes_to_first_partition_leader churnEnv)
             0 emptyAddReq 3%Z None (Some 4) fresh eq_refl).
  - destruct (proj2 (proj2 (proj2 (batch_goes_to_first_partition_leader churnEnv)))
                2 sampleDeleteReq "txn-1"%string 3%Z (Some 4) fresh
                7%Z ["k1"%string] [(9%Z, ["k2"%string])] eq_refl)
      as (Hparts & ext & Htr & Hfirst & _).
    destruct (Hfirst hostA eq_refl) as (ext' & Hext).
    exists ext'. split; [| exact Hparts].
    rewrite Htr, Hext. reflexivity.
Defined.

(** The batch of [sampleAdd] has partitions 7 and 8: with [churnEnv] all
    three lookups are for partition 7, and each send carries both. *)
Example sampleAdd_run :
  let tr := trace (snd (invoke churnEnv 3 sampleAdd (Some 4) fresh)) in
  lookupsOf tr = [(1, 7); (1, 7); (1, 7)]%Z /\
  map (fun s => wireParts (snd s)) (sendsOf tr) = [[7; 8]; [7; 8]; [7; 8]]%Z /\
  map (fun s => snd (fst s)) (sendsOf tr)
  = [toInternal churnEnv hostA; toInternal churnEnv hostA; toInternal churnEnv hostB].
Proof. repeat split. Qed.

(** C10.  The re-invocation after an [E_LEADER_CHANGED] answer passes no
    event base: the retried call is the same operation called with the
    default event base, whatever the caller passed.  So in every run the
    first send is made with the caller's event base and every later (retried)
    one with the default. *)
Theorem retry_drops_event_base (env : Env) (op : ChainOp) (evb : EventBasePtr) :
  (forall pid fuel w l,
     opPart op = Some pid ->
     leaderAt env (lookups w) (opSpace op) pid = StValue l ->
     getErrorCode (responseAt env (sends w) evb (toInternal env l) (opWire op))
     = E_LEADER_CHANGED ->
     invoke env (S fuel) op evb w
     = invoke env fuel op (evbDefault env)
         (emit (EvSleep 500)
            (sent evb (toInternal env l) (opWire op) (lookedUp (opSpace op) pid w)))) /\
  (forall fuel w,
   exists ext,
     trace (snd (invoke env fuel op evb w)) = trace w ++ ext /\
     (sendsOf ext = [] \/
      exists n,
        map (fun s => fst (fst s)) (sendsOf ext) = evb :: repeat (evbDefault env) n)).
Proof.
  split.
  - intros pid fuel w l Hpart Hl Hc.
    rewrite !(invoke_chainLoop env op Hpart). now apply chainLoop_retry.
  - intros fuel w. destruct (opPart op) as [pid |] eqn:Hpart.
    + destruct (invoke_shape env op fuel evb w Hpart) as (ext & Htr & _ & _ & Hevb & _).
      now exists ext.
    + exists []. rewrite app_nil_r. split; [now apply invoke_nothing | now left].
Qed.

Lemma retry_drops_event_base_witness :
  invoke churnEnv 3 sampleDelete (Some 4) fresh
  = invoke churnEnv 2 sampleDelete None
      (emit (EvSleep 500)
         (sent (Some 4) (toInternal churnEnv hostA) (opWire sampleDelete)
            (lookedUp 1%Z 7%Z fresh))) /\
  map (fun s => fst (fst s))
    (sendsOf (trace (snd (invoke churnEnv 3 sampleDelete (Some 4) fresh))))
  = [Some 4; None; None].
Proof.
  split.
  - exact (proj1 (retry_drops_event_base churnEnv sampleDelete (Some 4))
             7%Z 2 fresh hostA eq_refl eq_refl eq_refl).
  - reflexivity.
Defined.

(** ** One resolution per chain operation *)

Lemma attemptEvents_no_resolution env space pid q evb L K i :
  resolutionsOf (attemptEvents env space pid q evb L K i) = [].
Proof. unfold attemptEvents. now destruct (leaderAt env (L + i) space pid). Qed.

(** If some attempt within the fuel does not end with [E_LEADER_CHANGED],
    the operation returns and has fulfilled the promise exactly once. *)
Lemma chain_resolves_once (env : Env) (op : ChainOp) (pid : PartitionID)
  (evb : EventBasePtr) (fuel k : nat) :
  opPart op = Some pid ->
  k < fuel ->
  attemptCode env (opSpace op) pid (opWire op) evb 0 0 k <> E_LEADER_CHANGED ->
  exists c w',
    invoke env fuel op evb fresh = (Val tt, w') /\
    promise w' = Some c /\
    resolutionsOf (trace w') = [c].
Proof.
  intros Hpart Hk Hne.
  destruct (first_terminal_attempt env (opSpace op) pid (opWire op) evb 0 0 k Hne)
    as (N & HN & HNne & HNall).
  exists (attemptCode env (opSpace op) pid (opWire op) evb 0 0 N). eexists. split.
  - rewrite (invoke_chainLoop env op Hpart).
    apply chainLoop_run with (N := N);
      [reflexivity | lia | exact HNall | reflexivity | exact HNne].
  - simpl. split; [reflexivity |].
    rewrite !resolutionsOf_app, attemptEvents_no_resolution.
    assert (Hok : forall i, i < N ->
              exists l, leaderAt env (0 + i) (opSpace op) pid = StValue l).
    { intros i Hi.
      destruct (attemptCode_leader_changed env (opSpace op) pid (opWire op) evb 0 0 i
                  (HNall i Hi)) as [l [Hl _]]. now exists l. }
    destruct (retryEvents_counts env (opSpace op) pid (opWire op) evb 0 0 Hok)
      as (_ & _ & _ & Hrs).
    now rewrite Hrs.
Qed.

(** In every run, ended or not, the promise is fulfilled at most once. *)
Lemma chain_resolves_at_most_once (env : Env) (op : ChainOp) (evb : EventBasePtr)
  (fuel : nat) :
  length (resolutionsOf (trace (snd (invoke env fuel op evb fresh)))) <= 1.
Proof.
  destruct (opPart op) as [pid |] eqn:Hpart.
  - destruct (invoke_shape env op fuel evb fresh Hpart) as (ext & Htr & _ & _ & _ & Hres).
    now rewrite Htr.
  - rewrite (invoke_nothing env op fuel evb fresh Hpart). simpl. lia.
Qed.

End ChainFacts.

(** * Facts about the snapshot transfer *)

Module SnapshotFacts.
Import SnapshotManager.
Local Open Scope nat_scope.

Lemma SnapshotStatus_eqb_eq (a b : SnapshotStatus) :
  SnapshotStatus_eqb a b = true <-> a = b.
Proof. destruct a, b; simpl; split; intro H; try reflexivity; discriminate. Qed.

Lemma failedAttempts_S env dst req start r :
  failedAttempts env dst req start (S r)
  = [EvSend dst req; EvResponse (answerAt env start dst req); EvSleep 1]
    ++ failedAttempts env dst req (S start) r.
Proof. reflexivity. Qed.

Lemma failedAttempts_snoc env dst req start r :
  failedAttempts env dst req start (S r)
  = failedAttempts env dst req start r
    ++ [EvSend dst req; EvResponse (answerAt env (start + r) dst req); EvSleep 1].
Proof.
  unfold failedAttempts. rewrite seq_S, flat_map_app. simpl. reflexivity.
Qed.

(** ** The retry loop of the callback *)

Section Callback.
Variable env : Env.
Variable p : RaftPart.
Variable dst : HostAddr.
Variable commit : LogID * TermID.
Variable inv : Invocation.

Let req : SendSnapshotRequest := requestFor p commit inv.

(** One iteration of the loop, spelt out.  A [setValue] that throws inside
    the [try] block is caught like a transport failure. *)
Lemma sendLoop_step n w :
  sendLoop env (S n) p dst commit inv w
  = let w1 := emit (EvResponse (answerAt env (sends w) dst req)) (sent dst req w) in
    match answerAt env (sends w) dst req with
    | TryException _ => sendLoop env n p dst commit inv (emit (EvSleep 1) w1)
    | TryValue resp =>
        if ErrorCode_eqb (error_code resp) SUCCEEDED then
          if SnapshotStatus_eqb (status inv) DONE then
            match promise w with
            | None => (Val true, fulfilled (StValue commit) w1)
            | Some _ => sendLoop env n p dst commit inv (emit (EvSleep 1) w1)
            end
          else (Val true, w1)
        else
          match promise w with
          | None => (Val false, fulfilled sendFailed w1)
          | Some _ => sendLoop env n p dst commit inv (emit (EvSleep 1) w1)
          end
    end.
Proof.
  unfold req, requestFor.
  simpl. unfold bind, tryCatch, send, get, setValue, sleep, ret. simpl.
  destruct (answerAt env (sends w) dst _) as [resp | what]; simpl; [| reflexivity].
  destruct (ErrorCode_eqb (error_code resp) SUCCEEDED).
  - destruct (SnapshotStatus_eqb (status inv) DONE); simpl; [| reflexivity].
    destruct (promise w); reflexivity.
  - simpl. destruct (promise w); reflexivity.
Qed.

(** The world after [r] failed attempts. *)
Lemma sendLoop_failures r :
  forall n w,
    (forall i, i < r -> hasValue (answerAt env (sends w + i) dst req) = false) ->
    sendLoop env (r + n) p dst commit inv w
    = sendLoop env n p dst commit inv
        {| promise := promise w;
           sends := sends w + r;
           trace := trace w ++ failedAttempts env dst req (sends w) r |}.
Proof.
  induction r as [| r IH]; intros n w Hfail.
  - simpl. rewrite Nat.add_0_r, app_nil_r. now destruct w.
  - change (S r + n) with (S (r + n)). rewrite sendLoop_step.
    pose proof (Hfail 0 ltac:(lia)) as H0. rewrite Nat.add_0_r in H0.
    destruct (answerAt env (sends w) dst req) as [resp | what] eqn:Ha; [discriminate |].
    cbv zeta. rewrite IH.
    + simpl. rewrite failedAttempts_S, Ha. f_equal. f_equal; [lia |].
      now rewrite <- !app_assoc.
    + intros i Hi. simpl. rewrite <- Nat.add_succ_r. apply Hfail. lia.
Qed.

(** Every attempt within the budget fails at the transport: the loop makes
    [n] sends, sleeps after each, then fulfils the promise with the error
    and answers false. *)
Lemma sendLoop_exhausted n w :
  promise w = None ->
  (forall i, i < n -> hasValue (answerAt env (sends w + i) dst req) = false) ->
  sendLoop env n p dst commit inv w
  = (Val false,
     {| promise := Some sendFailed;
        sends := sends w + n;
        trace := trace w ++ failedAttempts env dst req (sends w) n
                 ++ [EvSetValue sendFailed] |}).
Proof.
  intros Hp Hfail.
  rewrite <- (Nat.add_0_r n) at 1. rewrite (@sendLoop_failures n 0 w Hfail).
  simpl. unfold bind, setValue, ret. simpl. rewrite Hp. unfold fulfilled. simpl.
  now rewrite <- app_assoc.
Qed.

(** [r] attempts fail at the transport and the next one, still within the
    budget, is answered: the loop stops there. *)
Lemma sendLoop_answered n r w resp :
  promise w = None ->
  r < n ->
  (forall i, i < r -> hasValue (answerAt env (sends w + i) dst req) = false) ->
  answerAt env (sends w + r) dst req = TryValue resp ->
  sendLoop env n p dst commit inv w
  = let tr := trace w ++ failedAttempts env dst req (sends w) r
              ++ [EvSend dst req; EvResponse (TryValue resp)] in
    if ErrorCode_eqb (error_code resp) SUCCEEDED then
      if SnapshotStatus_eqb (status inv) DONE then
        (Val true,
         {| promise := Some (StValue commit); sends := sends w + S r;
            trace := tr ++ [EvSetValue (StValue commit)] |})
      else
        (Val true, {| promise := None; sends := sends w + S r; trace := tr |})
    else
      (Val false,
       {| promise := Some sendFailed; sends := sends w + S r;
          trace := tr ++ [EvSetValue sendFailed] |}).
Proof.
  intros Hp Hr Hfail Hans.
  replace n with (r + S (n - S r)) by lia.
  rewrite (@sendLoop_failures r (S (n - S r)) w Hfail).
  rewrite sendLoop_step. simpl. rewrite Hans, Hp.
  unfold fulfilled, emit, sent. simpl.
  destruct (ErrorCode_eqb (error_code resp) SUCCEEDED).
  - destruct (SnapshotStatus_eqb (status inv) DONE); simpl;
      (f_equal; f_equal; [lia | now rewrite <- !app_assoc]).
  - f_equal. f_equal; [lia | now rewrite <- !app_assoc].
Qed.

(** The answers to the sends of one chunk either all fail at the transport
    within the budget, or there is a first one that is a response. *)
Lemma first_answer n start :
  (forall i, i < n -> hasValue (answerAt env (start + i) dst req) = false) \/
  (exists r resp,
     r < n /\
     (forall i, i < r -> hasValue (answerAt env (start + i) dst req) = false) /\
     answerAt env (start + r) dst req = TryValue resp).
Proof.
  induction n as [| n IH].
  - left. intros i Hi. lia.
  - destruct IH as [Hall | (r & resp & Hr & Hfail & Hans)].
    + destruct (answerAt env (start + n) dst req) as [resp | what] eqn:Ha.
      * right. exists n, resp. repeat split; auto.
      * left. intros i Hi. destruct (Nat.eq_dec i n) as [-> | Hne].
        -- now rewrite Ha.
        -- apply Hall. lia.
    + right. exists r, resp. repeat split; auto.
Qed.


End Callback.

(** ** The observer *)

Lemma observeAll_app o a b : observeAll o (a ++ b) = observeAll (observeAll o a) b.
Proof. apply fold_left_app. Qed.

Lemma disciplined_app expect a :
  forall o b,
    disciplined expect o (a ++ b)
    <-> disciplined expect o a /\ disciplined expect (observeAll o a) b.
Proof.
  induction a as [| e a IH]; intros o b; simpl.
  - tauto.
  - rewrite IH. tauto.
Qed.

Lemma snap_resolutionsOf_app a b :
  resolutionsOf (a ++ b) = resolutionsOf a ++ resolutionsOf b.
Proof. apply flat_map_app. Qed.

Lemma snap_sendsOf_app a b : sendsOf (a ++ b) = sendsOf a ++ sendsOf b.
Proof. apply flat_map_app. Qed.

Lemma responsesOf_app a b : responsesOf (a ++ b) = responsesOf a ++ responsesOf b.
Proof. apply flat_map_app. Qed.

Lemma snap_sleepsOf_app a b : sleepsOf (a ++ b) = sleepsOf a ++ sleepsOf b.
Proof. apply flat_map_app. Qed.

Lemma ackedCount_app a b : ackedCount (a ++ b) = ackedCount a + ackedCount b.
Proof.
  unfold ackedCount. now rewrite responsesOf_app, filter_app, length_app.
Qed.

(** The observer counts the acknowledged chunks. *)
Lemma observeAll_acked tr :
  forall o, acked (observeAll o tr) = acked o + ackedCount tr.
Proof.
  induction tr as [| e tr IH]; intro o.
  - simpl. unfold ackedCount. simpl. lia.
  - change (e :: tr) with ([e] ++ tr). rewrite ackedCount_app.
    simpl. rewrite IH. destruct e as [v | d r | r | s | v]; simpl;
      unfold ackedCount; simpl; try lia.
    destruct (isAck r); simpl; lia.
Qed.

(** Under the discipline the sends and the responses alternate. *)
Lemma disciplined_alternates expect tr :
  forall o,
    disciplined expect o tr ->
    length (sendsOf tr) + match inFlight o with Some _ => 1 | None => 0 end
    = length (responsesOf tr)
      + match inFlight (observeAll o tr) with Some _ => 1 | None => 0 end.
Proof.
  induction tr as [| e tr IH]; intros o Hd.
  - reflexivity.
  - destruct Hd as [Ha Hd]. specialize (IH _ Hd).
    destruct e as [v | d r | r | s | v]; simpl in *.
    + exact IH.
    + destruct Ha as [Ha _]. rewrite Ha. lia.
    + destruct (inFlight o); [| now elim Ha].
      destruct (isAck r); simpl in IH; lia.
    + exact IH.
    + exact IH.
Qed.

Section Blocks.
Variable env : Env.
Variable dst : HostAddr.
Variable req : SendSnapshotRequest.
Variable expect : nat -> option (HostAddr * SendSnapshotRequest).

(** Failed attempts keep to the discipline and leave the observer where it
    was. *)
Lemma failedAttempts_disciplined r :
  forall start k d,
    expect k = Some (dst, req) ->
    (forall i, i < r -> hasValue (answerAt env (start + i) dst req) = false) ->
    disciplined expect (mkObserver k None d) (failedAttempts env dst req start r) /\
    observeAll (mkObserver k None d) (failedAttempts env dst req start r)
    = mkObserver k None d.
Proof.
  induction r as [| r IH]; intros start k d He Hfail.
  - split; [exact I | reflexivity].
  - rewrite failedAttempts_S.
    pose proof (Hfail 0 ltac:(lia)) as H0. rewrite Nat.add_0_r in H0.
    destruct (answerAt env start dst req) as [resp | what] eqn:Ha; [discriminate |].
    destruct (IH (S start) k d He) as [Hd Ho].
    { intros i Hi. replace (S start + i) with (start + S i) by lia.
      apply Hfail. lia. }
    simpl. repeat split; auto; discriminate.
Qed.

Lemma failedAttempts_counts r :
  forall start,
    (forall i, i < r -> hasValue (answerAt env (start + i) dst req) = false) ->
    sendsOf (failedAttempts env dst req start r) = repeat (dst, req) r /\
    sleepsOf (failedAttempts env dst req start r) = repeat 1%Z r /\
    resolutionsOf (failedAttempts env dst req start r) = [] /\
    ackedCount (failedAttempts env dst req start r) = 0 /\
    Forall (fun a => hasValue a = false) (responsesOf (failedAttempts env dst req start r)).
Proof.
  induction r as [| r IH]; intros start Hfail.
  - repeat split. constructor.
  - rewrite failedAttempts_S.
    pose proof (Hfail 0 ltac:(lia)) as H0. rewrite Nat.add_0_r in H0.
    destruct (IH (S start)) as (Hs & Hz & Hr & Ha & Hf).
    { intros i Hi. replace (S start + i) with (start + S i) by lia.
      apply Hfail. lia. }
    rewrite snap_sendsOf_app, snap_sleepsOf_app, snap_resolutionsOf_app,
      ackedCount_app, responsesOf_app.
    rewrite Hs, Hz, Hr, Ha. simpl. repeat split.
    + unfold ackedCount. simpl.
      destruct (answerAt env start dst req); [discriminate | reflexivity].
    + constructor; assumption.
Qed.

End Blocks.

(** ** One invocation of the callback *)

Section Transfer.
Variable env : Env.
Variable p : RaftPart.
Variable dst : HostAddr.
Variable commit : LogID * TermID.
Variable expect : nat -> option (HostAddr * SendSnapshotRequest).

Lemma done_requestFor inv :
  done (requestFor p commit inv) = SnapshotStatus_eqb (status inv) DONE.
Proof. reflexivity. Qed.

(** Entered with the promise unfulfilled, nothing in flight and [k] chunks
    acknowledged, the callback returns.  When it answers true it has sent its
    chunk, possibly several times, and got it acknowledged, and has fulfilled
    the promise exactly when the status was [DONE]; when it answers false it
    has fulfilled the promise with the error. *)
Lemma callback_run inv w k :
  promise w = None ->
  resolutionsOf (trace w) = [] ->
  disciplined expect idle (trace w) ->
  observeAll idle (trace w) = mkObserver k None false ->
  (status inv <> FAILED -> expect k = Some (dst, requestFor p commit inv)) ->
  exists b w',
    snapshotCallback env p dst commit inv w = (Val b, w') /\
    disciplined expect idle (trace w') /\
    (exists ext, trace w' = trace w ++ ext) /\
    if b then
      status inv <> FAILED /\
      observeAll idle (trace w')
      = mkObserver (S k) None (SnapshotStatus_eqb (status inv) DONE) /\
      promise w'
      = (if SnapshotStatus_eqb (status inv) DONE then Some (StValue commit) else None) /\
      resolutionsOf (trace w')
      = (if SnapshotStatus_eqb (status inv) DONE then [StValue commit] else [])
    else
      observeAll idle (trace w') = mkObserver k None false /\
      promise w' = Some sendFailed /\
      resolutionsOf (trace w') = [sendFailed].
Proof.
  intros Hp Hres Hd Ho He.
  unfold snapshotCallback.
  destruct (SnapshotStatus_eqb (status inv) FAILED) eqn:Hst.
  - exists false, (fulfilled sendFailed w). split.
    + unfold bind, setValue, ret. now rewrite Hp.
    + unfold fulfilled. simpl. repeat split.
      * apply disciplined_app. split; [exact Hd |]. rewrite Ho. simpl. auto.
      * now eexists.
      * rewrite observeAll_app, Ho. reflexivity.
      * rewrite snap_resolutionsOf_app, Hres. reflexivity.
  - assert (Hnf : status inv <> FAILED).
    { intro H. apply SnapshotStatus_eqb_eq in H. congruence. }
    specialize (He Hnf).
    set (n := Z.to_nat (snapshot_send_retry_times (flags env))).
    destruct (first_answer env p dst commit inv n (sends w))
      as [Hall | (r & resp & Hr & Hfail & Hans)].
    + exists false. eexists. split.
      * apply sendLoop_exhausted; assumption.
      * destruct (@failedAttempts_disciplined env dst _ expect n (sends w) k false He Hall)
          as [Hfd Hfo].
        destruct (@failedAttempts_counts env dst _ n (sends w) Hall)
          as (_ & _ & Hfr & _).
        simpl. repeat split.
        -- apply disciplined_app. split; [exact Hd |]. rewrite Ho.
           apply disciplined_app. split; [exact Hfd |]. rewrite Hfo. simpl. auto.
        -- now eexists.
        -- rewrite !observeAll_app, Ho, Hfo. reflexivity.
        -- rewrite !snap_resolutionsOf_app, Hres, Hfr. reflexivity.
    + destruct (@failedAttempts_disciplined env dst _ expect r (sends w) k false He Hfail)
        as [Hfd Hfo].
      destruct (@failedAttempts_counts env dst _ r (sends w) Hfail)
        as (_ & _ & Hfr & _).
      pose proof (@sendLoop_answered env p dst commit inv n r w resp Hp Hr Hfail Hans) as Hrun.
      cbv zeta in Hrun. fold n.
      assert (Hblock :
        disciplined expect idle
          (trace w ++ failedAttempts env dst (requestFor p commit inv) (sends w) r
           ++ [EvSend dst (requestFor p commit inv); EvResponse (TryValue resp)])).
      { apply disciplined_app. split; [exact Hd |]. rewrite Ho.
        apply disciplined_app. split; [exact Hfd |]. rewrite Hfo. simpl.
        repeat split; auto. discriminate. }
      destruct (ErrorCode_eqb (error_code resp) SUCCEEDED) eqn:Hack.
      * exists true.
        destruct (SnapshotStatus_eqb (status inv) DONE) eqn:Hdone;
          eexists; (split; [exact Hrun |]); simpl.
        -- repeat split; auto.
           ++ rewrite app_assoc. apply disciplined_app. rewrite <- app_assoc.
              split; [exact Hblock |].
              rewrite !observeAll_app, Ho, Hfo. simpl. rewrite Hack. simpl. auto.
           ++ eexists. now rewrite <- !app_assoc.
           ++ rewrite app_assoc, !observeAll_app, Ho, Hfo. simpl. rewrite Hack.
              simpl. now rewrite Hdone.
           ++ rewrite !snap_resolutionsOf_app, Hres, Hfr. reflexivity.
        -- repeat split; auto.
           ++ now eexists.
           ++ rewrite !observeAll_app, Ho, Hfo. simpl. rewrite Hack.
              simpl. now rewrite Hdone.
           ++ rewrite !snap_resolutionsOf_app, Hres, Hfr. reflexivity.
      * exists false. eexists. split; [exact Hrun |]. simpl. repeat split.
        -- rewrite app_assoc. apply disciplined_app. rewrite <- app_assoc.
           split; [exact Hblock |].
           rewrite !observeAll_app, Ho, Hfo. simpl. rewrite Hack. simpl. auto.
        -- eexists. now rewrite <- !app_assoc.
        -- rewrite app_assoc, !observeAll_app, Ho, Hfo. simpl. now rewrite Hack.
        -- rewrite !snap_resolutionsOf_app, Hres, Hfr. reflexivity.
Qed.


(** ** The whole iteration *)

(** An iteration that follows the protocol, entered with the promise
    unfulfilled, nothing in flight and [k] chunks acknowledged, returns with
    the promise fulfilled exactly once; the value is the captured position
    exactly when a terminal chunk was acknowledged. *)
Lemma transfer_run items :
  forall k w,
    followsProtocol items = true ->
    promise w = None ->
    resolutionsOf (trace w) = [] ->
    disciplined expect idle (trace w) ->
    observeAll idle (trace w) = mkObserver k None false ->
    (forall j inv, nth_error items j = Some inv ->
                   status inv <> FAILED ->
                   expect (k + j) = Some (dst, requestFor p commit inv)) ->
    exists w' v,
      accessAllRowsInSnapshot items (snapshotCallback env p dst commit) w = (Val tt, w') /\
      promise w' = Some v /\
      resolutionsOf (trace w') = [v] /\
      (v = StValue commit \/ v = sendFailed) /\
      disciplined expect idle (trace w') /\
      inFlight (observeAll idle (trace w')) = None /\
      (doneAcked (observeAll idle (trace w')) = true <-> v = StValue commit) /\
      (exists ext, trace w' = trace w ++ ext).
Proof.
  induction items as [| inv rest IH]; intros k w Hproto Hp Hres Hd Ho He;
    [discriminate |].
  assert (He0 : status inv <> FAILED -> expect k = Some (dst, requestFor p commit inv)).
  { intro Hnf. rewrite <- (Nat.add_0_r k). now apply He. }
  destruct (@callback_run inv w k Hp Hres Hd Ho He0)
    as (b & w1 & Hcb & Hd1 & [ext1 Hext1] & Hpost).
  simpl accessAllRowsInSnapshot. unfold bind. rewrite Hcb.
  destruct b.
  - destruct Hpost as (Hnf & Ho1 & Hp1 & Hres1).
    destruct rest as [| inv2 rest'].
    + (* the last invocation: its status is DONE *)
      simpl in Hproto.
      assert (Hdone : SnapshotStatus_eqb (status inv) DONE = true).
      { destruct (status inv); try reflexivity; [discriminate | now elim Hnf]. }
      rewrite Hdone in *.
      exists w1, (StValue commit). simpl. unfold ret.
      repeat split; auto.
      * now rewrite Ho1.
      * now rewrite Ho1.
      * now exists ext1.
    + (* more to come: its status is MORE *)
      assert (Hmore : SnapshotStatus_eqb (status inv) MORE = true /\
                      followsProtocol (inv2 :: rest') = true).
      { simpl in Hproto. apply andb_prop in Hproto. exact Hproto. }
      destruct Hmore as [Hmore Hproto'].
      assert (Hdone : SnapshotStatus_eqb (status inv) DONE = false).
      { destruct (status inv); try reflexivity; discriminate. }
      rewrite Hdone in *.
      destruct (IH (S k) w1 Hproto' Hp1 Hres1 Hd1 Ho1)
        as (w' & v & Hrun & Hpv & Hrv & Hv & Hdv & Hfl & Hda & [ext2 Hext2]).
      { intros j inv' Hj Hnf'. rewrite Nat.add_succ_comm. now apply He. }
      exists w', v. repeat split; auto; try (now apply Hda).
      exists (ext1 ++ ext2). now rewrite Hext2, Hext1, app_assoc.
  - destruct Hpost as (Ho1 & Hp1 & Hres1).
    exists w1, sendFailed. unfold ret.
    repeat split; auto.
    + now rewrite Ho1.
    + rewrite Ho1. simpl. discriminate.
    + discriminate.
    + now exists ext1.
Qed.

End Transfer.

(** The whole task run by [sendSnapshot], for an iteration that follows the
    protocol. *)
Lemma sendSnapshot_run (env : Env) (p : RaftPart) (dst : HostAddr) :
  followsProtocol (iteration env (spaceId_ p) (partId_ p)) = true ->
  exists w' v ext,
    sendSnapshot env p dst = (Val tt, w') /\
    promise w' = Some v /\
    resolutionsOf (trace w') = [v] /\
    (v = StValue (committedAt env 0) \/ v = sendFailed) /\
    trace w' = EvLastCommittedLogId (committedAt env 0) :: ext /\
    disciplined
      (chunkNo p dst (committedAt env 0) (iteration env (spaceId_ p) (partId_ p)))
      idle (trace w') /\
    inFlight (observeAll idle (trace w')) = None /\
    (doneAcked (observeAll idle (trace w')) = true <-> v = StValue (committedAt env 0)).
Proof.
  intro Hproto.
  unfold sendSnapshot, sendSnapshotTask, bind, lastCommittedLogId. simpl.
  destruct (@transfer_run env p dst (committedAt env 0)
              (chunkNo p dst (committedAt env 0) (iteration env (spaceId_ p) (partId_ p)))
              (iteration env (spaceId_ p) (partId_ p)) 0
              (emit (EvLastCommittedLogId (committedAt env 0)) newPromise)
              Hproto)
    as (w' & v & Hrun & Hpv & Hrv & Hv & Hdv & Hfl & Hda & [ext Hext]);
    try reflexivity.
  - simpl. auto.
  - intros j inv Hj Hnf. unfold chunkNo. simpl. rewrite Hj.
    destruct (SnapshotStatus_eqb (status inv) FAILED) eqn:Hst; [| reflexivity].
    apply SnapshotStatus_eqb_eq in Hst. now elim Hnf.
  - exists w', v, ext. repeat split; auto; try (now apply Hda).
Qed.

(** ** Retrying one chunk *)

(** C4.  For an invocation whose status is not [FAILED], entered with the
    promise unfulfilled, and a budget of [n = snapshot_send_retry_times]
    attempts (3 unless the flag is set): an attempt is repeated only after
    the transport failed, and a sleep of one second follows each failed
    attempt.  (1) If [r < n] attempts fail at the transport and the next is
    answered, the callback makes exactly [r + 1] sends and stops at the
    response: with [SUCCEEDED] it answers true; with any other error code it
    does not send again, fulfils the promise with the error and answers
    false, the signal to stop the iteration.  (2) If all [n] attempts fail at the
    transport, it makes exactly [n] sends, fulfils the promise with the
    error and answers false. *)
Theorem chunk_send_retry_policy (env : Env) (p : RaftPart) (dst : HostAddr)
  (commit : LogID * TermID) (inv : Invocation) (w : World) :
  status inv <> FAILED ->
  promise w = None ->
  let n := Z.to_nat (snapshot_send_retry_times (flags env)) in
  let req := requestFor p commit inv in
  snapshot_send_retry_times defaultFlags = 3%Z /\
  (forall r resp,
     r < n ->
     (forall i, i < r -> hasValue (answerAt env (sends w + i) dst req) = false) ->
     answerAt env (sends w + r) dst req = TryValue resp ->
     let tr := trace w ++ failedAttempts env dst req (sends w) r
               ++ [EvSend dst req; EvResponse (TryValue resp)] in
     sendsOf (failedAttempts env dst req (sends w) r) = repeat (dst, req) r /\
     sleepsOf (failedAttempts env dst req (sends w) r) = repeat 1%Z r /\
     snapshotCallback env p dst commit inv w
     = if ErrorCode_eqb (error_code resp) SUCCEEDED then
         if SnapshotStatus_eqb (status inv) DONE then
           (Val true,
            {| promise := Some (StValue commit); sends := sends w + S r;
               trace := tr ++ [EvSetValue (StValue commit)] |})
         else
           (Val true, {| promise := None; sends := sends w + S r; trace := tr |})
       else
         (Val false,
          {| promise := Some sendFailed; sends := sends w + S r;
             trace := tr ++ [EvSetValue sendFailed] |})) /\
  ((forall i, i < n -> hasValue (answerAt env (sends w + i) dst req) = false) ->
   sendsOf (failedAttempts env dst req (sends w) n) = repeat (dst, req) n /\
   sleepsOf (failedAttempts env dst req (sends w) n) = repeat 1%Z n /\
   snapshotCallback env p dst commit inv w
   = (Val false,
      {| promise := Some sendFailed;
         sends := sends w + n;
         trace := trace w ++ failedAttempts env dst req (sends w) n
                  ++ [EvSetValue sendFailed] |})).
Proof.
  intros Hnf Hp n req.
  assert (Hcb : snapshotCallback env p dst commit inv w
                = sendLoop env n p dst commit inv w).
  { unfold snapshotCallback.
    destruct (SnapshotStatus_eqb (status inv) FAILED) eqn:Hst; [| reflexivity].
    apply SnapshotStatus_eqb_eq in Hst. now elim Hnf. }
  split; [reflexivity |]. split.
  - intros r resp Hr Hfail Hans tr.
    destruct (@failedAttempts_counts env dst req r (sends w) Hfail) as (Hs & Hz & _).
    split; [exact Hs |]. split; [exact Hz |].
    rewrite Hcb. exact (@sendLoop_answered env p dst commit inv n r w resp Hp Hr Hfail Hans).
  - intro Hall.
    destruct (@failedAttempts_counts env dst req n (sends w) Hall) as (Hs & Hz & _).
    split; [exact Hs |]. split; [exact Hz |].
    rewrite Hcb. now apply sendLoop_exhausted.
Qed.

Lemma chunk_send_retry_policy_witness :
  snapshotCallback refusingEnv samplePart sampleDst (100%Z, 5%Z)
    (mkInvocation ["row1"%string] 1 4 MORE) newPromise
  = (Val false,
     {| promise := Some sendFailed;
        sends := 1;
        trace := [EvSend sampleDst
                    (requestFor samplePart (100%Z, 5%Z)
                       (mkInvocation ["row1"%string] 1 4 MORE));
                  EvResponse nackResponse;
                  EvSetValue sendFailed] |}) /\
  sends (snd (snapshotCallback unreachableEnv samplePart sampleDst (100%Z, 5%Z)
                (mkInvocation ["row1"%string] 1 4 MORE) newPromise)) = 3.
Proof.
  split.
  - refine (proj2 (proj2 (proj1 (proj2
      (@chunk_send_retry_policy refusingEnv samplePart sampleDst (100%Z, 5%Z)
         (mkInvocation ["row1"%string] 1 4 MORE) newPromise _ eq_refl))
      0 {| error_code := E_OTHER 17 |} _ _ eq_refl))).
    + discriminate.
    + simpl. lia.
    + intros i Hi. lia.
  - refine (f_equal (fun r => sends (snd r)) (proj2 (proj2 (proj2 (proj2
      (@chunk_send_retry_policy unreachableEnv samplePart sampleDst (100%Z, 5%Z)
         (mkInvocation ["row1"%string] 1 4 MORE) newPromise _ eq_refl))
      _)))).
    + discriminate.
    + intros i Hi. reflexivity.
Defined.

(** ** What the observer tells about a finished trace *)



(** When no expected chunk is terminal, no terminal chunk is acknowledged. *)
Lemma no_done_no_doneAcked expect tr :
  (forall k d r, expect k = Some (d, r) -> done r = false) ->
  forall o,
    disciplined expect o tr ->
    doneAcked o = false ->
    match inFlight o with Some q => done q = false | None => True end ->
    doneAcked (observeAll o tr) = false.
Proof.
  intro Hexp. induction tr as [| e tr IH]; intros o Hd Ho Hfl; [exact Ho |].
  destruct Hd as [Ha Hd]. simpl. apply IH; auto.
  - destruct e as [v | d r | r | s | v]; simpl; auto.
    destruct (isAck r); simpl; auto.
    rewrite Ho. simpl. destruct (inFlight o); auto.
  - destruct e as [v | d r | r | s | v]; simpl; auto.
    + destruct Ha as [_ Ha]. now apply Hexp in Ha.
    + now destruct (isAck r).
Qed.

(** What the discipline says about a send somewhere in the trace. *)
Lemma disciplined_send expect pre d req post :
  disciplined expect idle (pre ++ EvSend d req :: post) ->
  length (sendsOf pre) = length (responsesOf pre) /\
  expect (ackedCount pre) = Some (d, req).
Proof.
  intro H. apply disciplined_app in H. destruct H as [Hpre [[Hfl He] _]].
  pose proof (disciplined_alternates expect pre idle Hpre) as Halt.
  rewrite Hfl in Halt. simpl in Halt.
  rewrite observeAll_acked in He. simpl in He.
  split; [lia | exact He].
Qed.

(** The iteration stops at an invocation whose status is [FAILED]. *)
Lemma iteration_stops_at_failed env p dst commit inv pre :
  status inv = FAILED ->
  forall post w,
    accessAllRowsInSnapshot (pre ++ inv :: post) (snapshotCallback env p dst commit) w
    = accessAllRowsInSnapshot (pre ++ [inv]) (snapshotCallback env p dst commit) w.
Proof.
  intro Hst. induction pre as [| a pre IH]; intros post w.
  - simpl. unfold bind, snapshotCallback. rewrite Hst. simpl.
    unfold bind, setValue, ret. now destruct (promise w).
  - simpl. unfold bind.
    destruct (snapshotCallback env p dst commit a w) as [[[|] | why] w1]; auto.
Qed.

(** ** The result of a transfer *)



(** ** Failure of the row iteration *)

Lemma followsProtocol_ending more last :
  Forall (fun i => status i = MORE) more ->
  status last <> MORE ->
  followsProtocol (more ++ [last]) = true.
Proof.
  intros Hmore Hlast. induction Hmore as [| a more Ha Hmore IH].
  - simpl. destruct (status last); try reflexivity. now elim Hlast.
  - change ((a :: more) ++ [last]) with (a :: (more ++ [last])).
    destruct (more ++ [last]) as [| b tl] eqn:E.
    + now destruct more.
    + simpl. rewrite Ha. simpl. exact IH.
Qed.

Lemma send_in_trace tr d req :
  In (d, req) (sendsOf tr) -> exists pre post, tr = pre ++ EvSend d req :: post.
Proof.
  unfold sendsOf. intro H. apply in_flat_map in H. destruct H as (e & He & Hin).
  destruct e as [v | d' r | r | s | v]; simpl in Hin; try contradiction.
  destruct Hin as [Heq | []]. injection Heq as -> ->.
  now apply in_split.
Qed.

(** C7.  When the row iteration invokes the callback with status [FAILED]
    while the future is still pending, the callback fulfils the promise with
    the error "Send snapshot failed!", answers false and sends nothing, and
    the iteration makes no further invocation: whatever was to follow, the
    transfer is over.  So for an iteration that fails after chunks of status
    [MORE], the transfer ends with that error and every chunk sent is one of
    those yielded before the failure. *)
Theorem failed_iteration_aborts :
  (forall env p dst commit inv rest w,
     status inv = FAILED ->
     promise w = None ->
     snapshotCallback env p dst commit inv w = (Val false, fulfilled sendFailed w) /\
     accessAllRowsInSnapshot (inv :: rest) (snapshotCallback env p dst commit) w
     = (Val tt, fulfilled sendFailed w) /\
     promise (fulfilled sendFailed w)
     = Some (StStatus (StatusError "Send snapshot failed!")) /\
     sends (fulfilled sendFailed w) = sends w /\
     sendsOf (trace (fulfilled sendFailed w)) = sendsOf (trace w)) /\
  (forall env p dst more inv post,
     iteration env (spaceId_ p) (partId_ p) = more ++ inv :: post ->
     Forall (fun i => status i = MORE) more ->
     status inv = FAILED ->
     exists w',
       sendSnapshot env p dst = (Val tt, w') /\
       promise w' = Some sendFailed /\
       resolutionsOf (trace w') = [sendFailed] /\
       Forall (fun s => exists inv',
                          In inv' more /\
                          s = (dst, requestFor p (committedAt env 0) inv'))
              (sendsOf (trace w'))).
Proof.
  split.
  - intros env p dst commit inv rest w Hst Hp.
    assert (Hcb : snapshotCallback env p dst commit inv w
                  = (Val false, fulfilled sendFailed w)).
    { unfold snapshotCallback. rewrite Hst. simpl.
      unfold bind, setValue, ret. now rewrite Hp. }
    split; [exact Hcb |]. split.
    + simpl. unfold bind. rewrite Hcb. reflexivity.
    + split; [reflexivity |]. split; [reflexivity |].
      unfold fulfilled. simpl. rewrite snap_sendsOf_app. simpl. apply app_nil_r.
  - intros env p dst more inv post Hiter Hmore Hst.
    set (c0 := committedAt env 0).
    set (expect := chunkNo p dst c0 (more ++ [inv])).
    assert (Hproto : followsProtocol (more ++ [inv]) = true).
    { apply followsProtocol_ending; [exact Hmore | rewrite Hst; discriminate]. }
    destruct (@transfer_run env p dst c0 expect (more ++ [inv]) 0
                (emit (EvLastCommittedLogId c0) newPromise) Hproto)
      as (w' & v & Hrun & Hpv & Hrv & Hv & Hd & Hfl & Hda & [ext Hext]);
      try reflexivity.
    { simpl. auto. }
    { intros j inv' Hj Hnf. unfold expect, chunkNo. simpl. rewrite Hj.
      destruct (SnapshotStatus_eqb (status inv') FAILED) eqn:E; [| reflexivity].
      apply SnapshotStatus_eqb_eq in E. now elim Hnf. }
    assert (Hitem : forall k d r, expect k = Some (d, r) ->
              exists inv', In inv' more /\ d = dst /\ r = requestFor p c0 inv').
    { intros k d r He. unfold expect, chunkNo in He.
      destruct (nth_error (more ++ [inv]) k) as [inv' |] eqn:Hk; [| discriminate].
      destruct (SnapshotStatus_eqb (status inv') FAILED) eqn:E; [discriminate |].
      injection He as <- <-. exists inv'. split; [| now split].
      apply nth_error_In in Hk. apply in_app_or in Hk. destruct Hk as [Hk | [Hk | []]].
      - exact Hk.
      - subst inv'. rewrite Hst in E. discriminate. }
    assert (Hvf : v = sendFailed).
    { destruct Hv as [Hv | Hv]; [| exact Hv].
      apply Hda in Hv.
      rewrite (@no_done_no_doneAcked expect (trace w')) in Hv; try discriminate; auto.
      - intros k d r He. destruct (Hitem k d r He) as (inv' & Hin & _ & ->).
        rewrite done_requestFor.
        rewrite Forall_forall in Hmore. now rewrite (Hmore inv' Hin).
      - simpl. exact I. }
    subst v. exists w'. split.
    + unfold sendSnapshot, sendSnapshotTask, bind, lastCommittedLogId. simpl.
      rewrite Hiter, iteration_stops_at_failed by exact Hst. exact Hrun.
    + split; [exact Hpv |]. split; [exact Hrv |].
      apply Forall_forall. intros [d r] Hin.
      destruct (send_in_trace _ _ _ Hin) as (pre & post' & Hsplit).
      rewrite Hsplit in Hd. destruct (disciplined_send _ _ _ _ _ Hd) as [_ He].
      destruct (Hitem _ _ _ He) as (inv' & Hin' & -> & ->).
      now exists inv'.
Qed.

Lemma failed_iteration_aborts_witness :
  exists w',
    sendSnapshot failingIterationEnv samplePart sampleDst = (Val tt, w') /\
    promise w' = Some sendFailed /\
    resolutionsOf (trace w') = [sendFailed].
Proof.
  assert (Hmore : Forall (fun i => status i = MORE)
                    [mkInvocation ["row1"%string] 1 4 MORE])
    by (constructor; [reflexivity | constructor]).
  destruct (proj2 failed_iteration_aborts failingIterationEnv samplePart sampleDst
              [mkInvocation ["row1"%string] 1 4 MORE] (mkInvocation [] 1 4 FAILED) []
              eq_refl Hmore eq_refl)
    as (w' & Hrun & Hp & Hr & _).
  exists w'. split; [exact Hrun |]. split; assumption.
Defined.

(** ** One chunk at a time, in order *)

(** C8.  For an iteration that follows the protocol, the trace of
    [sendSnapshot] keeps to the sending discipline: at every point of the
    transfer at most one send is without its response; and when a send
    begins, nothing is in flight, and the chunk sent is the one that comes
    next in the iteration, number [k] when exactly [k] responses with
    [SUCCEEDED] have been received so far. *)
Theorem chunks_sent_in_order_one_at_a_time (env : Env) (p : RaftPart) (dst : HostAddr) :
  followsProtocol (iteration env (spaceId_ p) (partId_ p)) = true ->
  let items := iteration env (spaceId_ p) (partId_ p) in
  let tr := trace (snd (sendSnapshot env p dst)) in
  disciplined (chunkNo p dst (committedAt env 0) items) idle tr /\
  (forall pre post,
     tr = pre ++ post ->
     length (responsesOf pre) <= length (sendsOf pre) <= length (responsesOf pre) + 1) /\
  (forall pre d req post,
     tr = pre ++ EvSend d req :: post ->
     length (sendsOf pre) = length (responsesOf pre) /\
     d = dst /\
     exists inv,
       nth_error items (ackedCount pre) = Some inv /\
       status inv <> FAILED /\
       req = requestFor p (committedAt env 0) inv).
Proof.
  intros Hproto items tr.
  destruct (sendSnapshot_run env p dst Hproto)
    as (w' & v & ext & Hrun & _ & _ & _ & _ & Hd & _).
  assert (Htr : tr = trace w') by (unfold tr; now rewrite Hrun).
  rewrite Htr. split; [exact Hd |]. split.
  - intros pre post Hsplit. rewrite Hsplit in Hd.
    apply disciplined_app in Hd. destruct Hd as [Hpre _].
    pose proof (disciplined_alternates _ pre idle Hpre) as Halt. simpl in Halt.
    destruct (inFlight (observeAll idle pre)); lia.
  - intros pre d req post Hsplit. rewrite Hsplit in Hd.
    destruct (disciplined_send _ _ _ _ _ Hd) as [Hcount He].
    split; [exact Hcount |].
    unfold chunkNo in He. fold items in He.
    destruct (nth_error items (ackedCount pre)) as [inv |]; [| discriminate].
    destruct (SnapshotStatus_eqb (status inv) FAILED) eqn:E; [discriminate |].
    injection He as <- <-. split; [reflexivity |]. exists inv.
    split; [reflexivity |]. split; [| reflexivity].
    intro H. rewrite H in E. discriminate.
Qed.

Lemma chunks_sent_in_order_one_at_a_time_witness :
  map (fun s => rows (snd s))
    (sendsOf (trace (snd (sendSnapshot flakyEnv samplePart sampleDst))))
  = [["row1"; "row2"]; ["row3"]; ["row3"]]%string /\
  disciplined (chunkNo samplePart sampleDst (100%Z, 5%Z) twoChunks) idle
    (trace (snd (sendSnapshot flakyEnv samplePart sampleDst))).
Proof.
  split; [reflexivity |].
  exact (proj1 (@chunks_sent_in_order_one_at_a_time flakyEnv samplePart sampleDst eq_refl)).
Defined.

End SnapshotFacts.

(** * Facts about both components *)

Module ReplicationFacts.
Local Open Scope nat_scope.

(** C6.  Every operation fulfils its promise exactly once.  A chain
    operation whose retries come to an end (some attempt within the fuel
    ends with a code other than [E_LEADER_CHANGED]: success, a failed leader
    lookup, a failure reported by the receiver or the transport) returns with
    the promise fulfilled exactly once, and no run of a chain operation, ended
    or not, fulfils it twice.  [sendSnapshot], for an iteration that follows
    the protocol, returns with the promise fulfilled exactly once, whichever
    way the transfer goes (acknowledged terminal chunk, refusal by the
    receiver, exhausted retry budget, failed iteration). *)
Theorem one_resolution_per_operation :
  (forall env op pid evb fuel k,
     InternalStorageClient.opPart op = Some pid ->
     k < fuel ->
     InternalStorageClient.attemptCode env (InternalStorageClient.opSpace op) pid
       (InternalStorageClient.opWire op) evb 0 0 k <> E_LEADER_CHANGED ->
     exists c w',
       InternalStorageClient.invoke env fuel op evb InternalStorageClient.fresh
       = (Val tt, w') /\
       InternalStorageClient.promise w' = Some c /\
       InternalStorageClient.resolutionsOf (InternalStorageClient.trace w') = [c]) /\
  (forall env op evb fuel,
     length (InternalStorageClient.resolutionsOf
               (InternalStorageClient.trace
                  (snd (InternalStorageClient.invoke env fuel op evb
                          InternalStorageClient.fresh)))) <= 1) /\
  (forall env p dst,
     SnapshotManager.followsProtocol
       (SnapshotManager.iteration env (SnapshotManager.spaceId_ p)
          (SnapshotManager.partId_ p)) = true ->
     exists v w',
       SnapshotManager.sendSnapshot env p dst = (Val tt, w') /\
       SnapshotManager.promise w' = Some v /\
       SnapshotManager.resolutionsOf (SnapshotManager.trace w') = [v]).
Proof.
  split; [| split].
  - intros env op pid evb fuel k Hpart Hk Hne.
    exact (ChainFacts.chain_resolves_once env op evb Hpart Hk Hne).
  - intros env op evb fuel. apply ChainFacts.chain_resolves_at_most_once.
  - intros env p dst Hproto.
    destruct (SnapshotFacts.sendSnapshot_run env p dst Hproto)
      as (w' & v & ext & Hrun & Hpv & Hrv & _).
    exists v, w'. split; [exact Hrun |]. split; assumption.
Qed.

Lemma one_resolution_per_operation_witness :
  (exists c w',
     InternalStorageClient.invoke InternalStorageClient.churnEnv 5
       InternalStorageClient.sampleAdd (Some 4) InternalStorageClient.fresh
     = (Val tt, w') /\
     InternalStorageClient.promise w' = Some c /\
     InternalStorageClient.resolutionsOf (InternalStorageClient.trace w') = [c]) /\
  (exists v w',
     SnapshotManager.sendSnapshot SnapshotManager.unreachableEnv
       SnapshotManager.samplePart SnapshotManager.sampleDst = (Val tt, w') /\
     SnapshotManager.promise w' = Some v /\
     SnapshotManager.resolutionsOf (SnapshotManager.trace w') = [v]).
Proof.
  split.
  - refine (proj1 one_resolution_per_operation InternalStorageClient.churnEnv
              InternalStorageClient.sampleAdd 7%Z (Some 4) 5 2 eq_refl _ _).
    + lia.
    + discriminate.
  - exact (proj2 (proj2 one_resolution_per_operation) SnapshotManager.unreachableEnv
             SnapshotManager.samplePart SnapshotManager.sampleDst eq_refl).
Defined.

End ReplicationFacts.

(** * More facts about the chain-write client *)

Module ChainExtras.
Import InternalStorageClient.
Local Open Scope nat_scope.

(** X1.  [getErrorCode] reports [SUCCEEDED] exactly for a received response
    with an ok status whose failed-parts list is empty or starts with an entry
    whose own code is [SUCCEEDED]; the entries after the first are never
    looked at. *)
Theorem getErrorCode_succeeded_iff (tryResp : RpcResult) :
  getErrorCode tryResp = SUCCEEDED <->
  exists resp,
    tryResp = TryValue (StValue resp) /\
    (failed_parts (result resp) = [] \/
     exists p rest, failed_parts (result resp) = p :: rest /\ code p = SUCCEEDED).
Proof.
  split.
  - destruct tryResp as [[resp | st] | what]; simpl.
    + intro H. exists resp. split; [reflexivity |].
      destruct (failed_parts (result resp)) as [| p rest]; [now left |].
      right. now exists p, rest.
    + destruct (code_of st); discriminate.
    + discriminate.
  - intros (resp & -> & [Hnil | (p & rest & Hcons & Hp)]); simpl.
    + now rewrite Hnil.
    + now rewrite Hcons.
Qed.

(** X2.  [getErrorCode] reports [E_LEADER_CHANGED], the one code on which a
    chain operation retries, exactly when the status of the response has code
    [kLeaderChanged], or the status is ok and the first entry of the
    failed-parts list has code [E_LEADER_CHANGED]. *)
Theorem getErrorCode_leader_changed_iff (tryResp : RpcResult) :
  getErrorCode tryResp = E_LEADER_CHANGED <->
  (exists st, tryResp = TryValue (StStatus st) /\ code_of st = kLeaderChanged) \/
  (exists resp p rest,
     tryResp = TryValue (StValue resp) /\
     failed_parts (result resp) = p :: rest /\
     code p = E_LEADER_CHANGED).
Proof.
  split.
  - destruct tryResp as [[resp | st] | what]; simpl.
    + intro H. right. exists resp.
      destruct (failed_parts (result resp)) as [| p rest]; [discriminate |].
      now exists p, rest.
    + intro H. left. exists st. split; [reflexivity |].
      destruct (code_of st); try discriminate. reflexivity.
    + discriminate.
  - intros [(st & -> & Hst) | (resp & p & rest & -> & Hcons & Hp)]; simpl.
    + now rewrite Hst.
    + now rewrite Hcons.
Qed.

(** X3.  An attempt whose answer maps to any code other than
    [E_LEADER_CHANGED] is the last one: the operation makes its lookup and
    its send, fulfils the promise with that code and returns, without a sleep
    or a further lookup.  In particular a transport failure is not retried:
    it resolves the promise with [E_RPC_FAILURE]. *)
Theorem other_codes_are_final (env : Env) (op : ChainOp) (pid : PartitionID)
  (evb : EventBasePtr) (fuel : nat) (w : World) (l : HostAddr) :
  opPart op = Some pid ->
  promise w = None ->
  leaderAt env (lookups w) (opSpace op) pid = StValue l ->
  let answer := responseAt env (sends w) evb (toInternal env l) (opWire op) in
  getErrorCode answer <> E_LEADER_CHANGED ->
  invoke env (S fuel) op evb w
  = (Val tt,
     {| promise := Some (getErrorCode answer);
        lookups := S (lookups w);
        sends := S (sends w);
        trace := trace w ++ [EvGetLeader (opSpace op) pid;
                             EvSend evb (toInternal env l) (opWire op);
                             EvSetValue (getErrorCode answer)] |}) /\
  (hasValue answer = false -> getErrorCode answer = E_RPC_FAILURE).
Proof.
  intros Hpart Hp Hl answer Hne. split.
  - rewrite (ChainFacts.invoke_chainLoop env op Hpart).
    rewrite (@ChainFacts.chainLoop_terminal env (opSpace op) pid (opWire op)
               fuel evb w l (getErrorCode answer) Hl eq_refl Hne Hp).
    unfold fulfilled, sent, lookedUp. simpl. now rewrite <- !app_assoc.
  - destruct answer; [discriminate | reflexivity].
Qed.

(** A transport failure, met with a leader whose port is at the lower end of
    the 32-bit range: the send goes to the port the 32-bit sum wraps to, and
    the promise is fulfilled with [E_RPC_FAILURE] at once. *)
Lemma other_codes_are_final_witness :
  invoke
    {| kInternalPortOffset := -2; evbDefault := None;
       leaderAt := fun _ _ _ => StValue {| host := "storage-a"; port := -2147483647 |};
       responseAt := fun _ _ _ _ => TryException "timeout" |}
    1 sampleUpdate (Some 4) fresh
  = (Val tt,
     {| promise := Some E_RPC_FAILURE; lookups := 1; sends := 1;
        trace := [EvGetLeader 1%Z 7%Z;
                  EvSend (Some 4) {| host := "storage-a"; port := 2147483647 |}
                    (opWire sampleUpdate);
                  EvSetValue E_RPC_FAILURE] |}).
Proof.
  refine (proj1 (@other_codes_are_final
    {| kInternalPortOffset := -2; evbDefault := None;
       leaderAt := fun _ _ _ => StValue {| host := "storage-a"; port := -2147483647 |};
       responseAt := fun _ _ _ _ => TryException "timeout" |}
    sampleUpdate 7%Z (Some 4) 0 fresh {| host := "storage-a"; port := -2147483647 |}
    eq_refl eq_refl eq_refl _)).
  discriminate.
Defined.

(** As long as every attempt ends with [E_LEADER_CHANGED] the loop goes on. *)
Lemma chainLoop_keeps_retrying env space pid q n :
  forall evb w,
    (forall i, i < n ->
       attemptCode env space pid q evb (lookups w) (sends w) i = E_LEADER_CHANGED) ->
    chainLoop env n space pid q evb w
    = (Stop OutOfFuel,
       {| promise := promise w;
          lookups := lookups w + n;
          sends := sends w + n;
          trace := trace w ++ retryEvents env space pid q evb (lookups w) (sends w) n |}).
Proof.
  induction n as [| n IH]; intros evb w Hretry.
  - simpl. unfold outOfFuel. rewrite !Nat.add_0_r, app_nil_r. now destruct w.
  - destruct (ChainFacts.attemptCode_leader_changed env space pid q evb
                (lookups w) (sends w) 0 (Hretry 0 ltac:(lia))) as [l [Hl Hc]].
    rewrite Nat.add_0_r in Hl, Hc. simpl in Hc.
    rewrite (@ChainFacts.chainLoop_retry env space pid q n evb w l Hl Hc).
    rewrite IH.
    + simpl. f_equal. f_equal; try lia.
      rewrite ChainFacts.retryEvents_S.
      rewrite (@ChainFacts.attemptEvents_resolved env space pid q evb
                 (lookups w) (sends w) 0 l) by now rewrite Nat.add_0_r.
      simpl. now rewrite <- !app_assoc.
    + intros i Hi. simpl.
      rewrite (ChainFacts.attemptCode_shift env space pid q evb). apply Hretry. lia.
Qed.

(** X4.  The retries have no bound: if the first [n] attempts are all
    answered with a changed leader, the operation has made [n] lookups and
    [n] sends, has slept [n] times 500 ms, has not fulfilled the promise, and
    is about to start attempt [n + 1] (the model runs out of the fuel [n]). *)
Theorem retries_have_no_bound (env : Env) (op : ChainOp) (pid : PartitionID)
  (evb : EventBasePtr) (n : nat) :
  opPart op = Some pid ->
  (forall i, i < n ->
     attemptCode env (opSpace op) pid (opWire op) evb 0 0 i = E_LEADER_CHANGED) ->
  invoke env n op evb fresh
  = (Stop OutOfFuel,
     {| promise := None;
        lookups := n;
        sends := n;
        trace := retryEvents env (opSpace op) pid (opWire op) evb 0 0 n |}) /\
  sleepsOf (retryEvents env (opSpace op) pid (opWire op) evb 0 0 n) = repeat 500%Z n /\
  resolutionsOf (retryEvents env (opSpace op) pid (opWire op) evb 0 0 n) = [].
Proof.
  intros Hpart Hretry. split.
  - rewrite (ChainFacts.invoke_chainLoop env op Hpart).
    now rewrite chainLoop_keeps_retrying.
  - assert (Hok : forall i, i < n ->
              exists l, leaderAt env (0 + i) (opSpace op) pid = StValue l).
    { intros i Hi.
      destruct (ChainFacts.attemptCode_leader_changed env (opSpace op) pid (opWire op)
                  evb 0 0 i (Hretry i Hi)) as [l [Hl _]].
      now exists l. }
    destruct (ChainFacts.retryEvents_counts env (opSpace op) pid (opWire op) evb 0 0 Hok)
      as (_ & _ & Hz & Hr).
    now split.
Qed.

Lemma retries_have_no_bound_witness :
  fst (invoke churnEnv 2 sampleAdd (Some 4) fresh) = Stop OutOfFuel /\
  promise (snd (invoke churnEnv 2 sampleAdd (Some 4) fresh)) = None /\
  lookups (snd (invoke churnEnv 2 sampleAdd (Some 4) fresh)) = 2.
Proof.
  assert (H : forall i, i < 2 ->
            attemptCode churnEnv (opSpace sampleAdd) 7%Z (opWire sampleAdd) (Some 4) 0 0 i
            = E_LEADER_CHANGED).
  { intros i Hi. destruct i as [| [| i]]; [reflexivity | reflexivity | lia]. }
  rewrite (proj1 (@retries_have_no_bound churnEnv sampleAdd 7%Z (Some 4) 2 eq_refl H)).
  split; [reflexivity |]. split; reflexivity.
Defined.

(** X5.  Every send of one operation, the first as well as the retried ones,
    carries the same request, built once from the arguments of the call (the
    payload, the originating term and the version are not refreshed), and
    every lookup asks for the same space and partition. *)
Theorem retries_resend_the_same_request (env : Env) (op : ChainOp) (pid : PartitionID)
  (evb : EventBasePtr) (fuel : nat) :
  opPart op = Some pid ->
  let tr := trace (snd (invoke env fuel op evb fresh)) in
  Forall (fun s => snd s = opWire op) (sendsOf tr) /\
  Forall (eq (opSpace op, pid)) (lookupsOf tr).
Proof.
  intros Hpart tr.
  destruct (ChainFacts.invoke_shape env op fuel evb fresh Hpart)
    as (ext & Htr & Hlk & Hsd & _).
  unfold tr. rewrite Htr. simpl. split; [| exact Hlk].
  eapply Forall_impl; [| exact Hsd]. now intros s [Hs _].
Qed.

Lemma retries_resend_the_same_request_witness :
  map snd (sendsOf (trace (snd (invoke churnEnv 3 sampleUpdate (Some 4) fresh))))
  = [opWire sampleUpdate; opWire sampleUpdate; opWire sampleUpdate] /\
  Forall (fun s => snd s = opWire sampleUpdate)
    (sendsOf (trace (snd (invoke churnEnv 3 sampleUpdate (Some 4) fresh)))).
Proof.
  split; [reflexivity |].
  exact (proj1 (@retries_resend_the_same_request churnEnv sampleUpdate 7%Z (Some 4) 3
                  eq_refl)).
Defined.

End ChainExtras.

(** * More facts about the snapshot transfer *)

Module SnapshotExtras.
Import SnapshotManager.
Local Open Scope nat_scope.

Section Bounds.
Variable env : Env.
Variable p : RaftPart.
Variable dst : HostAddr.
Variable commit : LogID * TermID.

(** Whatever the answers and whatever the state of the promise, the loop
    entered with [n] iterations left sends at most [n] times, and sleeps only
    after a send. *)
Lemma sendLoop_sends_bound inv n :
  forall w,
  exists ext,
    trace (snd (sendLoop env n p dst commit inv w)) = trace w ++ ext /\
    length (sendsOf ext) <= n /\
    length (sleepsOf ext) <= length (sendsOf ext).
Proof.
  induction n as [| n IH]; intro w.
  - simpl. unfold bind, setValue, ret. destruct (promise w); simpl.
    + exists []. rewrite app_nil_r. repeat split; auto.
    + exists [EvSetValue sendFailed]. repeat split; auto.
  - rewrite SnapshotFacts.sendLoop_step. cbv zeta.
    set (a := answerAt env (sends w) dst (requestFor p commit inv)).
    set (w1 := emit (EvResponse a) (sent dst (requestFor p commit inv) w)).
    assert (Hretry : exists ext,
              trace (snd (sendLoop env n p dst commit inv (emit (EvSleep 1) w1)))
              = trace w ++ ext /\
              length (sendsOf ext) <= S n /\
              length (sleepsOf ext) <= length (sendsOf ext)).
    { destruct (IH (emit (EvSleep 1) w1)) as (ext & Htr & Hs & Hz).
      exists ([EvSend dst (requestFor p commit inv); EvResponse a; EvSleep 1] ++ ext).
      rewrite Htr. unfold w1. simpl. rewrite <- !app_assoc. simpl.
      repeat split; auto; lia. }
    assert (Hstop : forall tail,
              length (sendsOf tail) = 0 -> length (sleepsOf tail) = 0 ->
              exists ext,
                trace w1 ++ tail = trace w ++ ext /\
                length (sendsOf ext) <= S n /\
                length (sleepsOf ext) <= length (sendsOf ext)).
    { intros tail Hs Hz.
      exists ([EvSend dst (requestFor p commit inv); EvResponse a] ++ tail).
      unfold w1. simpl. rewrite <- !app_assoc. simpl.
      repeat split; auto; lia. }
    destruct a as [resp | what]; [| exact Hretry].
    destruct (ErrorCode_eqb (error_code resp) SUCCEEDED).
    + destruct (SnapshotStatus_eqb (status inv) DONE).
      * destruct (promise w); [exact Hretry |].
        unfold fulfilled. simpl snd. simpl trace at 1. now apply Hstop.
      * simpl snd. rewrite <- (app_nil_r (trace w1)). now apply Hstop.
    + destruct (promise w); [exact Hretry |].
      unfold fulfilled. simpl snd. simpl trace at 1. now apply Hstop.
Qed.

Lemma callback_sends_bound inv w :
  exists ext,
    trace (snd (snapshotCallback env p dst commit inv w)) = trace w ++ ext /\
    length (sendsOf ext) <= Z.to_nat (snapshot_send_retry_times (flags env)) /\
    length (sleepsOf ext) <= length (sendsOf ext).
Proof.
  unfold snapshotCallback. destruct (SnapshotStatus_eqb (status inv) FAILED).
  - unfold bind, setValue, ret. destruct (promise w); simpl.
    + exists []. rewrite app_nil_r. repeat split; auto; simpl; lia.
    + exists [EvSetValue sendFailed]. repeat split; auto; simpl; lia.
  - apply sendLoop_sends_bound.
Qed.

Lemma iteration_sends_bound items :
  forall w,
  exists ext,
    trace (snd (accessAllRowsInSnapshot items (snapshotCallback env p dst commit) w))
    = trace w ++ ext /\
    length (sendsOf ext)
    <= Z.to_nat (snapshot_send_retry_times (flags env)) * length items /\
    length (sleepsOf ext) <= length (sendsOf ext).
Proof.
  induction items as [| inv rest IH]; intro w.
  - exists []. simpl. rewrite app_nil_r. repeat split; auto. simpl. lia.
  - destruct (callback_sends_bound inv w) as (ext1 & Htr1 & Hs1 & Hz1).
    simpl accessAllRowsInSnapshot. unfold bind.
    destruct (snapshotCallback env p dst commit inv w) as [[[|] | why] w1];
      simpl in Htr1.
    + destruct (IH w1) as (ext2 & Htr2 & Hs2 & Hz2).
      exists (ext1 ++ ext2). rewrite Htr2, Htr1, <- app_assoc.
      rewrite SnapshotFacts.snap_sendsOf_app, SnapshotFacts.snap_sleepsOf_app,
        !length_app. simpl length.
      repeat split; auto; lia.
    + exists ext1. simpl. repeat split; auto. simpl length. lia.
    + exists ext1. simpl. repeat split; auto. simpl length. lia.
Qed.

Lemma ackedCount_snoc tr e :
  ackedCount (tr ++ [e])
  = ackedCount tr
    + match e with
      | EvResponse r => if isAck r then 1 else 0
      | _ => 0
      end.
Proof.
  rewrite SnapshotFacts.ackedCount_app. f_equal.
  destruct e; try reflexivity.
  unfold ackedCount. simpl. now destruct (isAck r).
Qed.

(** A callback that answers true has had its chunk acknowledged. *)
Lemma sendLoop_true_acked inv n :
  forall w,
    fst (sendLoop env n p dst commit inv w) = Val true ->
    ackedCount (trace w) < ackedCount (trace (snd (sendLoop env n p dst commit inv w))).
Proof.
  induction n as [| n IH]; intro w.
  - simpl. unfold bind, setValue, ret. destruct (promise w); simpl; discriminate.
  - rewrite SnapshotFacts.sendLoop_step. cbv zeta.
    remember (answerAt env (sends w) dst (requestFor p commit inv)) as a eqn:Ha.
    remember (emit (EvResponse a) (sent dst (requestFor p commit inv) w)) as w1 eqn:Hw.
    assert (Hw1 : ackedCount (trace w1)
                  = ackedCount (trace w) + (if isAck a then 1 else 0)).
    { rewrite Hw. simpl. rewrite !ackedCount_snoc. lia. }
    assert (Hretry : fst (sendLoop env n p dst commit inv (emit (EvSleep 1) w1)) = Val true ->
              ackedCount (trace w)
              < ackedCount (trace (snd (sendLoop env n p dst commit inv (emit (EvSleep 1) w1))))).
    { intro Htrue. pose proof (IH _ Htrue) as Hlt.
      simpl trace in Hlt at 1. rewrite ackedCount_snoc in Hlt. lia. }
    destruct a as [resp | what]; [| exact Hretry].
    simpl in Hw1.
    destruct (ErrorCode_eqb (error_code resp) SUCCEEDED).
    + destruct (SnapshotStatus_eqb (status inv) DONE).
      * destruct (promise w); [exact Hretry |].
        intros _. unfold fulfilled. simpl snd. simpl trace at 2.
        rewrite ackedCount_snoc. lia.
      * intros _. simpl snd. lia.
    + destruct (promise w); [exact Hretry | discriminate].
Qed.

Lemma callback_true_acked inv w :
  fst (snapshotCallback env p dst commit inv w) = Val true ->
  ackedCount (trace w) < ackedCount (trace (snd (snapshotCallback env p dst commit inv w))).
Proof.
  unfold snapshotCallback. destruct (SnapshotStatus_eqb (status inv) FAILED).
  - unfold bind, setValue, ret. destruct (promise w); simpl; discriminate.
  - apply sendLoop_true_acked.
Qed.

(** The iteration invokes the callback again only after an acknowledged
    chunk: the sends are bounded by the budget of one invocation for each
    acknowledged chunk, and one more. *)
Lemma iteration_sends_acked items :
  forall w,
  exists ext,
    trace (snd (accessAllRowsInSnapshot items (snapshotCallback env p dst commit) w))
    = trace w ++ ext /\
    length (sendsOf ext)
    <= Z.to_nat (snapshot_send_retry_times (flags env)) * (ackedCount ext + 1).
Proof.
  induction items as [| inv rest IH]; intro w.
  - exists []. simpl. rewrite app_nil_r. split; [reflexivity |]. simpl. lia.
  - destruct (callback_sends_bound inv w) as (ext1 & Htr1 & Hs1 & _).
    pose proof (callback_true_acked inv w) as Hack.
    simpl accessAllRowsInSnapshot. unfold bind.
    destruct (snapshotCallback env p dst commit inv w) as [[[|] | why] w1];
      simpl in Htr1, Hack.
    + destruct (IH w1) as (ext2 & Htr2 & Hs2).
      specialize (Hack eq_refl).
      rewrite Htr1, SnapshotFacts.ackedCount_app in Hack.
      exists (ext1 ++ ext2). rewrite Htr2, Htr1, <- app_assoc.
      split; [reflexivity |].
      rewrite SnapshotFacts.snap_sendsOf_app, SnapshotFacts.ackedCount_app, length_app.
      nia.
    + exists ext1. simpl. split; [exact Htr1 | nia].
    + exists ext1. simpl. split; [exact Htr1 | nia].
Qed.

End Bounds.

(** X6.  However the receiver answers, one invocation of the callback sends
    at most [snapshot_send_retry_times] times and sleeps at most once per
    send.  The callback is invoked again only after an acknowledged chunk, so
    a whole transfer sends at most that budget once for each acknowledged
    chunk and once more, and never more than the budget for each invocation
    the iteration holds. *)
Theorem transfer_sends_bounded (env : Env) (p : RaftPart) (dst : HostAddr) :
  let budget := Z.to_nat (snapshot_send_retry_times (flags env)) in
  (forall commit inv w,
     exists ext,
       trace (snd (snapshotCallback env p dst commit inv w)) = trace w ++ ext /\
       length (sendsOf ext) <= budget /\
       length (sleepsOf ext) <= length (sendsOf ext)) /\
  let tr := trace (snd (sendSnapshot env p dst)) in
  length (sendsOf tr) <= budget * (ackedCount tr + 1) /\
  length (sendsOf tr) <= budget * length (iteration env (spaceId_ p) (partId_ p)) /\
  length (sleepsOf tr) <= length (sendsOf tr).
Proof.
  intro budget. split; [intros commit inv w; apply callback_sends_bound |].
  intro tr. unfold tr, sendSnapshot, sendSnapshotTask, bind, lastCommittedLogId.
  simpl.
  destruct (iteration_sends_bound env p dst (committedAt env 0)
              (iteration env (spaceId_ p) (partId_ p))
              (emit (EvLastCommittedLogId (committedAt env 0)) newPromise))
    as (ext & Htr & Hs & Hz).
  destruct (iteration_sends_acked env p dst (committedAt env 0)
              (iteration env (spaceId_ p) (partId_ p))
              (emit (EvLastCommittedLogId (committedAt env 0)) newPromise))
    as (ext' & Htr' & Hs').
  assert (ext' = ext) as -> by (rewrite Htr in Htr'; now apply app_inv_head in Htr').
  rewrite Htr. simpl.
  split; [| split; assumption].
  unfold ackedCount. simpl. exact Hs'.
Qed.

(** With [unreachableEnv] no chunk is acknowledged: the three sends of the
    first invocation are all there is, although the iteration holds two
    invocations. *)
Lemma transfer_sends_bounded_witness :
  length (sendsOf (trace (snd (sendSnapshot unreachableEnv samplePart sampleDst)))) <= 3
  /\ length (sendsOf (trace (snd (sendSnapshot unreachableEnv samplePart sampleDst)))) = 3.
Proof.
  split; [| reflexivity].
  exact (proj1 (proj2 (@transfer_sends_bounded unreachableEnv samplePart sampleDst))).
Defined.

(** X7.  With [snapshot_send_retry_times] zero or negative the loop body is
    never entered: whatever the first invocation of the iteration is, the
    transfer sends nothing and resolves the future with the error. *)
Theorem no_budget_no_send (env : Env) (p : RaftPart) (dst : HostAddr)
  (inv : Invocation) (rest : list Invocation) :
  (snapshot_send_retry_times (flags env) <= 0)%Z ->
  iteration env (spaceId_ p) (partId_ p) = inv :: rest ->
  sendSnapshot env p dst
  = (Val tt,
     {| promise := Some sendFailed;
        sends := 0;
        trace := [EvLastCommittedLogId (committedAt env 0); EvSetValue sendFailed] |}).
Proof.
  intros Hflag Hiter.
  unfold sendSnapshot, sendSnapshotTask, bind, lastCommittedLogId. simpl.
  rewrite Hiter. simpl. unfold bind, snapshotCallback.
  assert (Hn : Z.to_nat (snapshot_send_retry_times (flags env)) = 0)
    by (destruct (snapshot_send_retry_times (flags env)); [reflexivity | lia | reflexivity]).
  rewrite Hn. now destruct (SnapshotStatus_eqb (status inv) FAILED).
Qed.

Lemma no_budget_no_send_witness :
  sendSnapshot noAttemptEnv samplePart sampleDst
  = (Val tt,
     {| promise := Some sendFailed;
        sends := 0;
        trace := [EvLastCommittedLogId (100%Z, 5%Z); EvSetValue sendFailed] |}).
Proof.
  refine (@no_budget_no_send noAttemptEnv samplePart sampleDst
            (nth 0 twoChunks (mkInvocation [] 0 0 MORE))
            [nth 1 twoChunks (mkInvocation [] 0 0 MORE)] _ eq_refl).
  simpl. lia.
Defined.

(** ** Success means every chunk was acknowledged *)

(** For an iteration that follows the protocol, entered with [k] chunks
    acknowledged: the number of acknowledged chunks never exceeds the number
    of invocations, and reaches it exactly when the promise ends up
    fulfilled with the captured position. *)
Lemma transfer_acked env p dst commit expect items :
  forall k w,
    followsProtocol items = true ->
    promise w = None ->
    resolutionsOf (trace w) = [] ->
    disciplined expect idle (trace w) ->
    observeAll idle (trace w) = mkObserver k None false ->
    (forall j inv, nth_error items j = Some inv ->
                   status inv <> FAILED ->
                   expect (k + j) = Some (dst, requestFor p commit inv)) ->
    let w' := snd (accessAllRowsInSnapshot items (snapshotCallback env p dst commit) w) in
    ackedCount (trace w') <= k + length items /\
    (promise w' = Some (StValue commit) <-> ackedCount (trace w') = k + length items).
Proof.
  induction items as [| inv rest IH]; intros k w Hproto Hp Hres Hd Ho He;
    [discriminate |].
  assert (He0 : status inv <> FAILED -> expect k = Some (dst, requestFor p commit inv)).
  { intro Hnf. rewrite <- (Nat.add_0_r k). now apply He. }
  destruct (@SnapshotFacts.callback_run env p dst commit expect inv w k Hp Hres Hd Ho He0)
    as (b & w1 & Hcb & Hd1 & _ & Hpost).
  simpl accessAllRowsInSnapshot. unfold bind. rewrite Hcb.
  destruct b.
  - destruct Hpost as (Hnf & Ho1 & Hp1 & Hres1).
    assert (Hack1 : ackedCount (trace w1) = S k).
    { pose proof (SnapshotFacts.observeAll_acked (trace w1) idle) as H.
      rewrite Ho1 in H. simpl in H. lia. }
    destruct rest as [| inv2 rest'].
    + simpl in Hproto.
      assert (Hdone : SnapshotStatus_eqb (status inv) DONE = true).
      { destruct (status inv); try reflexivity; [discriminate | now elim Hnf]. }
      rewrite Hdone in Hp1. simpl. unfold ret. simpl.
      rewrite Hack1, Hp1. split; [lia |]. split; intro; [lia | reflexivity].
    + assert (Hmore : SnapshotStatus_eqb (status inv) MORE = true /\
                      followsProtocol (inv2 :: rest') = true).
      { simpl in Hproto. apply andb_prop in Hproto. exact Hproto. }
      destruct Hmore as [Hmore Hproto'].
      assert (Hdone : SnapshotStatus_eqb (status inv) DONE = false).
      { destruct (status inv); try reflexivity; discriminate. }
      rewrite Hdone in *.
      destruct (IH (S k) w1 Hproto' Hp1 Hres1 Hd1 Ho1) as [Hle Hiff].
      { intros j inv' Hj Hnf'. rewrite Nat.add_succ_comm. now apply He. }
      cbv zeta. simpl length in *. split; [lia |].
      rewrite Hiff. split; intro; lia.
  - destruct Hpost as (Ho1 & Hp1 & Hres1).
    assert (Hack1 : ackedCount (trace w1) = k).
    { pose proof (SnapshotFacts.observeAll_acked (trace w1) idle) as H.
      rewrite Ho1 in H. simpl in H. lia. }
    cbv zeta. unfold ret. simpl. rewrite Hack1, Hp1. split; [lia |].
    split; intro H; [discriminate | lia].
Qed.

(** X8.  For an iteration that follows the protocol, the future is resolved
    either with the captured position or with the one error "Send snapshot
    failed!" (the three causes of failure are not told apart); and it is
    resolved with the position exactly when every invocation of the iteration
    had its chunk acknowledged with [SUCCEEDED]: a transfer never reports
    success after a chunk that was not acknowledged. *)
Theorem success_means_all_chunks_acked (env : Env) (p : RaftPart) (dst : HostAddr) :
  followsProtocol (iteration env (spaceId_ p) (partId_ p)) = true ->
  let items := iteration env (spaceId_ p) (partId_ p) in
  let w' := snd (sendSnapshot env p dst) in
  (promise w' = Some (StValue (committedAt env 0)) \/
   promise w' = Some (StStatus (StatusError "Send snapshot failed!"))) /\
  ackedCount (trace w') <= length items /\
  (promise w' = Some (StValue (committedAt env 0))
   <-> ackedCount (trace w') = length items).
Proof.
  intros Hproto items w'.
  destruct (SnapshotFacts.sendSnapshot_run env p dst Hproto)
    as (w2 & v & ext & Hrun & Hpv & _ & Hv & _).
  assert (Hw : w' = w2) by (unfold w'; now rewrite Hrun).
  split.
  - rewrite Hw, Hpv. destruct Hv as [-> | ->]; [now left | now right].
  - unfold w', sendSnapshot, sendSnapshotTask, bind, lastCommittedLogId. simpl.
    apply (@transfer_acked env p dst (committedAt env 0)
             (chunkNo p dst (committedAt env 0) items) items 0
             (emit (EvLastCommittedLogId (committedAt env 0)) newPromise) Hproto);
      try reflexivity.
    + simpl. auto.
    + intros j inv Hj Hnf. unfold chunkNo. simpl. rewrite Hj.
      destruct (SnapshotStatus_eqb (status inv) FAILED) eqn:Hst; [| reflexivity].
      apply SnapshotFacts.SnapshotStatus_eqb_eq in Hst. now elim Hnf.
Qed.

Lemma success_means_all_chunks_acked_witness :
  promise (snd (sendSnapshot flakyEnv samplePart sampleDst)) = Some (StValue (100%Z, 5%Z)) /\
  ackedCount (trace (snd (sendSnapshot flakyEnv samplePart sampleDst))) = 2 /\
  (promise (snd (sendSnapshot refusingEnv samplePart sampleDst))
   = Some (StValue (100%Z, 5%Z))
   <-> ackedCount (trace (snd (sendSnapshot refusingEnv samplePart sampleDst))) = 2).
Proof.
  split; [reflexivity |]. split; [reflexivity |].
  exact (proj2 (proj2 (@success_means_all_chunks_acked refusingEnv samplePart sampleDst
                         eq_refl))).
Defined.

(** ** The resolution comes last *)

(** A callback entered with the promise unfulfilled that leaves it fulfilled
    has fulfilled it as its last step. *)
Lemma callback_resolves_last env p dst commit inv w :
  promise w = None ->
  forall v,
    promise (snd (snapshotCallback env p dst commit inv w)) = Some v ->
    exists pre,
      trace (snd (snapshotCallback env p dst commit inv w)) = pre ++ [EvSetValue v].
Proof.
  intros Hp v. unfold snapshotCallback.
  destruct (SnapshotStatus_eqb (status inv) FAILED).
  - unfold bind, setValue, ret. rewrite Hp. simpl. intro H. injection H as <-.
    now exists (trace w).
  - set (n := Z.to_nat (snapshot_send_retry_times (flags env))).
    destruct (SnapshotFacts.first_answer env p dst commit inv n (sends w))
      as [Hall | (r & resp & Hr & Hfail & Hans)].
    + rewrite (@SnapshotFacts.sendLoop_exhausted env p dst commit inv n w Hp Hall).
      simpl. intro H. injection H as <-. eexists. now rewrite app_assoc.
    + rewrite (@SnapshotFacts.sendLoop_answered env p dst commit inv n r w resp
                 Hp Hr Hfail Hans).
      cbv zeta.
      destruct (ErrorCode_eqb (error_code resp) SUCCEEDED).
      * destruct (SnapshotStatus_eqb (status inv) DONE); simpl; intro H.
        -- injection H as <-. now eexists.
        -- discriminate.
      * simpl. intro H. injection H as <-. now eexists.
Qed.

(** X9.  For an iteration that follows the protocol, fulfilling the promise
    is the last thing a transfer does: after the future is resolved nothing
    is sent, awaited or slept on. *)
Theorem resolution_is_the_last_event (env : Env) (p : RaftPart) (dst : HostAddr) :
  followsProtocol (iteration env (spaceId_ p) (partId_ p)) = true ->
  exists v pre,
    promise (snd (sendSnapshot env p dst)) = Some v /\
    trace (snd (sendSnapshot env p dst)) = pre ++ [EvSetValue v] /\
    resolutionsOf pre = [].
Proof.
  intro Hproto.
  assert (Hgen : forall items k w expect,
    followsProtocol items = true ->
    promise w = None ->
    resolutionsOf (trace w) = [] ->
    disciplined expect idle (trace w) ->
    observeAll idle (trace w) = mkObserver k None false ->
    (forall j inv, nth_error items j = Some inv ->
                   status inv <> FAILED ->
                   expect (k + j)
                   = Some (dst, requestFor p (committedAt env 0) inv)) ->
    forall v,
      promise (snd (accessAllRowsInSnapshot items
                      (snapshotCallback env p dst (committedAt env 0)) w)) = Some v ->
      exists pre,
        trace (snd (accessAllRowsInSnapshot items
                      (snapshotCallback env p dst (committedAt env 0)) w))
        = pre ++ [EvSetValue v]).
  { induction items as [| inv rest IH]; intros k w expect Hp0 Hp Hres Hd Ho He v;
      [discriminate |].
    assert (He0 : status inv <> FAILED ->
                  expect k = Some (dst, requestFor p (committedAt env 0) inv)).
    { intro Hnf. rewrite <- (Nat.add_0_r k). now apply He. }
    destruct (@SnapshotFacts.callback_run env p dst (committedAt env 0) expect
                inv w k Hp Hres Hd Ho He0)
      as (b & w1 & Hcb & Hd1 & _ & Hpost).
    pose proof (@callback_resolves_last env p dst (committedAt env 0) inv w Hp) as Hlast.
    rewrite Hcb in Hlast. simpl in Hlast.
    simpl accessAllRowsInSnapshot. unfold bind. rewrite Hcb.
    destruct b.
    - destruct Hpost as (Hnf & Ho1 & Hp1 & Hres1).
      destruct rest as [| inv2 rest'].
      + simpl. exact (Hlast v).
      + assert (Hmore : SnapshotStatus_eqb (status inv) MORE = true /\
                        followsProtocol (inv2 :: rest') = true).
        { simpl in Hp0. apply andb_prop in Hp0. exact Hp0. }
        destruct Hmore as [Hmore Hproto'].
        assert (Hdone : SnapshotStatus_eqb (status inv) DONE = false).
        { destruct (status inv); try reflexivity; discriminate. }
        rewrite Hdone in *.
        apply (IH (S k) w1 expect Hproto' Hp1 Hres1 Hd1 Ho1).
        intros j inv' Hj Hnf'. rewrite Nat.add_succ_comm. now apply He.
    - simpl. exact (Hlast v). }
  destruct (SnapshotFacts.sendSnapshot_run env p dst Hproto)
    as (w2 & v & ext & Hrun & Hpv & Hrv & _).
  assert (Hpre : exists pre, trace w2 = pre ++ [EvSetValue v]).
  { assert (Hw : w2 = snd (sendSnapshot env p dst)) by now rewrite Hrun.
    rewrite Hw in Hpv |- *.
    revert Hpv. unfold sendSnapshot, sendSnapshotTask, bind, lastCommittedLogId. simpl.
    apply (Hgen (iteration env (spaceId_ p) (partId_ p)) 0
             (emit (EvLastCommittedLogId (committedAt env 0)) newPromise)
             (chunkNo p dst (committedAt env 0) (iteration env (spaceId_ p) (partId_ p)))
             Hproto); try reflexivity.
    - simpl. auto.
    - intros j inv Hj Hnf. unfold chunkNo. simpl. rewrite Hj.
      destruct (SnapshotStatus_eqb (status inv) FAILED) eqn:Hst; [| reflexivity].
      apply SnapshotFacts.SnapshotStatus_eqb_eq in Hst. now elim Hnf. }
  destruct Hpre as [pre Hpre].
  exists v, pre. rewrite Hrun. simpl. split; [exact Hpv |]. split; [exact Hpre |].
  rewrite Hpre, SnapshotFacts.snap_resolutionsOf_app in Hrv. simpl in Hrv.
  destruct (resolutionsOf pre) as [| x xs]; [reflexivity |].
  destruct xs; discriminate.
Qed.

Lemma resolution_is_the_last_event_witness :
  exists v pre,
    promise (snd (sendSnapshot unreachableEnv samplePart sampleDst)) = Some v /\
    trace (snd (sendSnapshot unreachableEnv samplePart sampleDst)) = pre ++ [EvSetValue v] /\
    resolutionsOf pre = [].
Proof.
  exact (@resolution_is_the_last_event unreachableEnv samplePart sampleDst eq_refl).
Defined.

End SnapshotExtras.

(** * Facts about the division of a zone *)

Module DivideZoneFacts.
Import DivideZoneProcessor.
Local Open Scope nat_scope.

Lemma HostAddr_eqb_eq (a b : HostAddr) : HostAddr_eqb a b = true <-> a = b.
Proof.
  unfold HostAddr_eqb. rewrite andb_true_iff, String.eqb_eq, Z.eqb_eq.
  destruct a as [ha pa], b as [hb pb]. simpl. split.
  - intros [-> ->]. reflexivity.
  - intro H. injection H as -> ->. now split.
Qed.

Lemma existsb_host (h : HostAddr) (l : list HostAddr) :
  existsb (HostAddr_eqb h) l = true <-> In h l.
Proof.
  rewrite existsb_exists. split.
  - intros (x & Hin & Heq). apply HostAddr_eqb_eq in Heq. now subst.
  - intro Hin. exists h. split; [exact Hin | now apply HostAddr_eqb_eq].
Qed.

Lemma existsb_name (z : string) (l : list string) :
  existsb (String.eqb z) l = true <-> In z l.
Proof.
  rewrite existsb_exists. split.
  - intros (x & Hin & Heq). apply String.eqb_eq in Heq. now subst.
  - intro Hin. exists z. split; [exact Hin | apply String.eqb_refl].
Qed.

Lemma Code_eqb_eq (a b : Code) : Code_eqb a b = true <-> a = b.
Proof. destruct a, b; simpl; split; intro H; try reflexivity; discriminate. Qed.

(** ** The set of hosts *)

Lemma insertHost_In set h x : In x (insertHost set h) <-> In x set \/ x = h.
Proof.
  unfold insertHost. destruct (existsb (HostAddr_eqb h) set) eqn:E.
  - apply existsb_host in E. split; [now left |]. intros [H | ->]; assumption.
  - rewrite in_app_iff. simpl. split.
    + intros [H | [H | []]]; [now left | now right].
    + intros [H | ->]; [now left | right; now left].
Qed.

Lemma insertHost_NoDup set h : NoDup set -> NoDup (insertHost set h).
Proof.
  intro Hnd. unfold insertHost. destruct (existsb (HostAddr_eqb h) set) eqn:E.
  - exact Hnd.
  - apply NoDup_app; [exact Hnd | repeat constructor; auto |].
    intros x Hx [<- | []].
    apply existsb_host in Hx. congruence.
Qed.

Lemma insertHosts_In hosts :
  forall set x, In x (insertHosts set hosts) <-> In x set \/ In x hosts.
Proof.
  induction hosts as [| h hosts IH]; intros set x; simpl.
  - tauto.
  - unfold insertHosts in *. simpl. rewrite IH, insertHost_In. intuition (subst; auto).
Qed.

Lemma insertHosts_NoDup hosts :
  forall set, NoDup set -> NoDup (insertHosts set hosts).
Proof.
  induction hosts as [| h hosts IH]; intros set Hnd; [exact Hnd |].
  unfold insertHosts in *. simpl. apply IH. now apply insertHost_NoDup.
Qed.

Lemma insertHosts_app set a b :
  insertHosts set (a ++ b) = insertHosts (insertHosts set a) b.
Proof. unfold insertHosts. apply fold_left_app. Qed.

Lemma hostsOfItems_In items h :
  In h (hostsOfItems items) <-> exists zone hosts, In (zone, hosts) items /\ In h hosts.
Proof.
  unfold hostsOfItems. rewrite insertHosts_In, in_concat. split.
  - intros [[] | (hs & Hhs & Hin)]. apply in_map_iff in Hhs.
    destruct Hhs as ([z hs'] & Heq & Hitem). simpl in Heq. subst hs'.
    now exists z, hs.
  - intros (z & hs & Hitem & Hin). right. exists hs. split; [| exact Hin].
    apply in_map_iff. now exists (z, hs).
Qed.

Lemma hostsOfItems_NoDup items : NoDup (hostsOfItems items).
Proof. apply insertHosts_NoDup. constructor. Qed.

(** ** The loop over the items *)

Section Loops.
Variable env : Env.

Lemma itemsAccepted_cons seen zone hosts rest :
  itemsAccepted env seen ((zone, hosts) :: rest) <->
  isOk (doGet env (zoneKey env zone)) = false /\
  hosts <> [] /\
  hasAdjacentDuplicate hosts = false /\
  ~ In zone seen /\
  itemsAccepted env (seen ++ [zone]) rest.
Proof.
  unfold itemsAccepted. simpl. rewrite NoDup_cons_iff. split.
  - intros (Hitems & [Hnotin Hnd] & Hseen).
    destruct (Hitems zone hosts (or_introl eq_refl)) as (H1 & H2 & H3).
    split; [exact H1 |]. split; [exact H2 |]. split; [exact H3 |].
    split; [apply Hseen; now left |].
    split; [| split].
    + intros z hs Hin. apply Hitems. now right.
    + exact Hnd.
    + intros z Hz Hin. apply in_app_or in Hin. destruct Hin as [Hin | [<- | []]].
      * apply (Hseen z); [now right | exact Hin].
      * contradiction.
  - intros (H1 & H2 & H3 & Hnotin & Hitems & Hnd & Hseen).
    split; [| split; [split |]].
    + intros z hs [H | H].
      * injection H as <- <-. now repeat split.
      * now apply Hitems.
    + intro Hin. apply (Hseen zone Hin). apply in_or_app. right. now left.
    + exact Hnd.
    + intros z [<- | Hz]; [exact Hnotin |].
      intro Hin. apply (Hseen z Hz). apply in_or_app. now left.
Qed.

(** Once the code is an error it stays one: the loop never resets it. *)
Lemma itemsLoop_error_stays items :
  forall st, code st <> SUCCEEDED -> code (itemsLoop env items st) <> SUCCEEDED.
Proof.
  induction items as [| [zone hosts] rest IH]; intros st Hst; [exact Hst |].
  simpl.
  destruct (isOk (doGet env (zoneKey env zone))); [discriminate |].
  destruct (existsb (String.eqb zone) (zoneNames st)); [discriminate |].
  destruct (hasAdjacentDuplicate hosts); [discriminate |].
  apply IH. destruct hosts; simpl; [discriminate | exact Hst].
Qed.

Lemma itemsLoop_accepts items :
  forall st,
    code st = SUCCEEDED ->
    (code (itemsLoop env items st) = SUCCEEDED <-> itemsAccepted env (zoneNames st) items).
Proof.
  induction items as [| [zone hosts] rest IH]; intros st Hst.
  - simpl. split; [| intros _; exact Hst].
    intros _. unfold itemsAccepted. simpl. repeat split; try constructor; contradiction.
  - rewrite itemsAccepted_cons. simpl.
    destruct (isOk (doGet env (zoneKey env zone))) eqn:Hget.
    { simpl. split; [discriminate | intros (H & _); discriminate]. }
    destruct (existsb (String.eqb zone) (zoneNames st)) eqn:Hseen.
    { simpl. split; [discriminate |]. intros (_ & _ & _ & Hnot & _).
      apply existsb_name in Hseen. contradiction. }
    assert (Hnot : ~ In zone (zoneNames st)).
    { intro Hin. apply existsb_name in Hin. congruence. }
    destruct (hasAdjacentDuplicate hosts) eqn:Hdup.
    { destruct hosts; simpl; split; try discriminate;
        intros (_ & _ & H & _); discriminate. }
    destruct hosts as [| h hosts'].
    + split.
      * intro H. exfalso. revert H. apply itemsLoop_error_stays. simpl. discriminate.
      * intros (_ & H & _). now elim H.
    + rewrite IH by exact Hst. simpl. split.
      * intro H. split; [reflexivity |]. split; [discriminate |].
        split; [reflexivity |]. split; [exact Hnot | exact H].
      * intros (_ & _ & _ & _ & H). exact H.
Qed.

Lemma itemsLoop_result items :
  forall st,
    code st = SUCCEEDED ->
    itemsAccepted env (zoneNames st) items ->
    itemsLoop env items st
    = {| zoneNames := zoneNames st ++ map fst items;
         totalHosts := insertHosts (totalHosts st) (concat (map snd items));
         batchHolder := batchHolder st ++ zonePuts env items;
         code := SUCCEEDED |}.
Proof.
  induction items as [| [zone hosts] rest IH]; intros st Hst Hacc.
  - simpl. rewrite !app_nil_r. destruct st. simpl in Hst. now subst.
  - apply itemsAccepted_cons in Hacc.
    destruct Hacc as (Hget & Hne & Hdup & Hnot & Hrest).
    simpl. rewrite Hget, Hdup.
    assert (Hseen : existsb (String.eqb zone) (zoneNames st) = false).
    { destruct (existsb (String.eqb zone) (zoneNames st)) eqn:E; [| reflexivity].
      apply existsb_name in E. contradiction. }
    rewrite Hseen. destruct hosts as [| h hosts']; [now elim Hne |].
    rewrite IH; simpl; auto.
    rewrite <- !app_assoc. simpl. now rewrite insertHosts_app.
Qed.

Lemma hostsLoop_accepts hosts zoneHosts :
  hostsLoop hosts zoneHosts SUCCEEDED = SUCCEEDED <->
  (forall h, In h hosts -> In h zoneHosts).
Proof.
  induction hosts as [| h hosts IH]; simpl.
  - split; [intros _ x [] | reflexivity].
  - destruct (existsb (HostAddr_eqb h) zoneHosts) eqn:E.
    + apply existsb_host in E. rewrite IH. split.
      * intros H x [<- | Hx]; auto.
      * intros H x Hx. apply H. now right.
    + split; [discriminate |]. intro H.
      assert (Hin : In h zoneHosts) by (apply H; now left).
      apply existsb_host in Hin. congruence.
Qed.

Lemma spacesLoop_puts kvs original names :
  forall batch,
    spacesLoop env kvs original names batch
    = batch ++ spacePuts env kvs original names.
Proof.
  induction kvs as [| [key val] rest IH]; intro batch.
  - simpl. now rewrite app_nil_r.
  - simpl. destruct (existsb (String.eqb original) (zone_names (parseSpace env val))).
    + rewrite IH, <- app_assoc. reflexivity.
    + apply IH.
Qed.

End Loops.

(** ** When a division is accepted, and what it writes *)

(** The outcome of [process], branch by branch: the conditions under which
    the batch is written, and the batch. *)
Lemma process_submits_iff (env : Env) (req : DivideZoneReq) (batch : list BatchOp) :
  process env req = BatchSubmitted batch <->
  exists zoneValue kvs,
    doGet env (zoneKey env (zone_name req)) = inr zoneValue /\
    length (zone_items req) <= length (parseZoneHosts env zoneValue) /\
    itemsAccepted env [] (zone_items req) /\
    length (hostsOfItems (zone_items req)) = length (parseZoneHosts env zoneValue) /\
    (forall h, In h (hostsOfItems (zone_items req)) ->
               In h (parseZoneHosts env zoneValue)) /\
    doPrefix env (spacePrefix env) = inr kvs /\
    batch = zonePuts env (zone_items req)
            ++ [BatchRemove (zoneKey env (zone_name req))]
            ++ spacePuts env kvs (zone_name req) (map fst (zone_items req)).
Proof.
  unfold process.
  destruct (doGet env (zoneKey env (zone_name req))) as [c | zoneValue] eqn:Hget.
  { split; [discriminate | intros (v & kvs & H & _); discriminate]. }
  destruct (Nat.ltb_spec (length (parseZoneHosts env zoneValue))
              (length (zone_items req))) as [Hlt | Hle].
  { split; [discriminate |].
    intros (v & kvs & H & Hle & _). injection H as <-. lia. }
  set (st0 := {| zoneNames := []; totalHosts := []; batchHolder := [];
                 code := SUCCEEDED |}).
  pose proof (itemsLoop_accepts env (zone_items req) st0 eq_refl) as Hacc.
  destruct (Code_eqb (code (itemsLoop env (zone_items req) st0)) SUCCEEDED) eqn:Hcode.
  2: { simpl. split; [discriminate |].
       intros (v & kvs & _ & _ & Hitems & _).
       apply Hacc in Hitems. apply Code_eqb_eq in Hitems. congruence. }
  apply Code_eqb_eq in Hcode. apply Hacc in Hcode.
  rewrite (@itemsLoop_result env (zone_items req) st0 eq_refl Hcode).
  simpl. fold (hostsOfItems (zone_items req)).
  destruct (Nat.eqb_spec (length (hostsOfItems (zone_items req)))
              (length (parseZoneHosts env zoneValue))) as [Hlen | Hlen].
  2: { simpl. split; [discriminate |].
       intros (v & kvs & H & _ & _ & Hl & _). injection H as <-. contradiction. }
  simpl.
  pose proof (hostsLoop_accepts (hostsOfItems (zone_items req))
                (parseZoneHosts env zoneValue)) as Hhosts.
  destruct (Code_eqb (hostsLoop (hostsOfItems (zone_items req))
                        (parseZoneHosts env zoneValue) SUCCEEDED) SUCCEEDED) eqn:Hh.
  2: { simpl. split; [discriminate |].
       intros (v & kvs & H & _ & _ & _ & Hin & _). injection H as <-.
       pose proof (proj2 Hhosts Hin) as Hok. apply Code_eqb_eq in Hok. congruence. }
  apply Code_eqb_eq in Hh. pose proof (proj1 Hhosts Hh) as Hincl. simpl.
  unfold updateSpacesZone.
  destruct (doPrefix env (spacePrefix env)) as [c | kvs] eqn:Hprefix.
  { simpl. split; [discriminate |].
    intros (v & kvs & _ & _ & _ & _ & _ & H & _). discriminate. }
  simpl. rewrite spacesLoop_puts, <- app_assoc. split.
  - intro H. injection H as <-. exists zoneValue, kvs.
    repeat (split; [first [reflexivity | assumption] |]). reflexivity.
  - intros (v & kvs' & H & _ & _ & _ & _ & Hk & ->).
    injection H as <-. injection Hk as <-. reflexivity.
Qed.

(** X10.  [process] hands a batch to the store exactly when: the zone to
    divide can be read; there are no more items than the zone has hosts; no
    new zone exists already, no name comes twice, every new zone has hosts
    and none has two equal hosts next to each other; the hosts named in the
    items, counted once each, are as many as the hosts of the zone and all
    among them; and the spaces can be listed.  The batch then is: one put per
    new zone in the order of the items, the removal of the divided zone, and
    one put per space that lists the divided zone. *)
Theorem divide_accepts_iff (env : Env) (req : DivideZoneReq) (batch : list BatchOp) :
  process env req = BatchSubmitted batch <->
  exists zoneValue kvs,
    doGet env (zoneKey env (zone_name req)) = inr zoneValue /\
    length (zone_items req) <= length (parseZoneHosts env zoneValue) /\
    itemsAccepted env [] (zone_items req) /\
    length (hostsOfItems (zone_items req)) = length (parseZoneHosts env zoneValue) /\
    (forall h, In h (hostsOfItems (zone_items req)) ->
               In h (parseZoneHosts env zoneValue)) /\
    doPrefix env (spacePrefix env) = inr kvs /\
    batch = zonePuts env (zone_items req)
            ++ [BatchRemove (zoneKey env (zone_name req))]
            ++ spacePuts env kvs (zone_name req) (map fst (zone_items req)).
Proof. exact (process_submits_iff env req batch). Qed.

Lemma divide_accepts_iff_witness :
  process sampleEnv sampleReq
  = BatchSubmitted
      [BatchPut "__zones__za" "10.0.0.1,10.0.0.2";
       BatchPut "__zones__zb" "10.0.0.3";
       BatchRemove "__zones__z0";
       BatchPut "__spaces__1" "z9,za,zb"].
Proof.
  apply (proj2 (divide_accepts_iff sampleEnv sampleReq _)).
  exists "hosts-of-z0"%string, [("__spaces__1"%string, "s1"%string)].
  split; [reflexivity |]. split; [simpl; lia |]. split.
  - unfold itemsAccepted. split; [| split].
    + intros zone hosts [H | [H | []]]; injection H as <- <-; repeat split; discriminate.
    + simpl. repeat constructor; simpl; intuition discriminate.
    + intros zone _ [].
  - split; [reflexivity |]. split.
    + intros h [<- | [<- | [<- | []]]]; simpl; auto.
    + split; reflexivity.
Defined.

(** The overlap of two new zones is not looked for: [overlappingReq], with
    one host in both new zones, is accepted like [sampleReq]. *)
Example overlapping_zones_accepted :
  process sampleEnv overlappingReq
  = BatchSubmitted
      [BatchPut "__zones__za" "10.0.0.1,10.0.0.2";
       BatchPut "__zones__zb" "10.0.0.2,10.0.0.3";
       BatchRemove "__zones__z0";
       BatchPut "__spaces__1" "z9,za,zb"].
Proof. reflexivity. Qed.

(** X11.  When a division is accepted, the hosts of the new zones taken
    together are exactly the hosts of the divided zone: no host is lost and
    none is brought in (that no host is in two new zones is not checked); and
    the host list of the divided zone has no host twice. *)
Theorem accepted_division_keeps_the_hosts (env : Env) (req : DivideZoneReq)
  (batch : list BatchOp) (zoneValue : string) :
  process env req = BatchSubmitted batch ->
  doGet env (zoneKey env (zone_name req)) = inr zoneValue ->
  (forall h,
     In h (parseZoneHosts env zoneValue) <->
     exists zone hosts, In (zone, hosts) (zone_items req) /\ In h hosts) /\
  NoDup (parseZoneHosts env zoneValue).
Proof.
  intros Hrun Hget.
  apply process_submits_iff in Hrun.
  destruct Hrun as (v & kvs & Hget' & _ & _ & Hlen & Hincl & _).
  rewrite Hget in Hget'. injection Hget' as <-.
  pose proof (hostsOfItems_NoDup (zone_items req)) as Hnd.
  assert (Hback : incl (parseZoneHosts env zoneValue) (hostsOfItems (zone_items req))).
  { apply NoDup_length_incl; [exact Hnd | lia | exact Hincl]. }
  split.
  - intro h. rewrite <- hostsOfItems_In. split; [apply Hback | apply Hincl].
  - apply (NoDup_incl_NoDup Hnd); [lia | exact Hincl].
Qed.

Lemma accepted_division_keeps_the_hosts_witness :
  (forall h,
     In h [hostX; hostY; hostZ] <->
     exists zone hosts, In (zone, hosts) (zone_items overlappingReq) /\ In h hosts) /\
  NoDup [hostX; hostY; hostZ].
Proof.
  exact (@accepted_division_keeps_the_hosts sampleEnv overlappingReq _
           "hosts-of-z0"%string eq_refl eq_refl).
Defined.

(** ** The spaces after the division *)

Lemma eraseFirst_length name zones :
  In name zones -> length (eraseFirst name zones) + 1 = length zones.
Proof.
  induction zones as [| z zones IH]; simpl; [contradiction |].
  intro Hin. destruct (String.eqb_spec z name) as [-> | Hne]; [lia |].
  destruct Hin as [-> | Hin]; [now elim Hne |].
  simpl. rewrite <- (IH Hin). lia.
Qed.

Lemma eraseFirst_other name zones z :
  z <> name -> (In z (eraseFirst name zones) <-> In z zones).
Proof.
  intro Hz. induction zones as [| a zones IH]; simpl; [tauto |].
  destruct (String.eqb_spec a name) as [-> | Hne].
  - split; [now right | intros [<- | H]; [now elim Hz | exact H]].
  - simpl. rewrite IH. tauto.
Qed.

Lemma eraseFirst_gone name zones :
  NoDup zones -> ~ In name (eraseFirst name zones).
Proof.
  induction zones as [| a zones IH]; simpl; [auto |].
  intro Hnd. apply NoDup_cons_iff in Hnd. destruct Hnd as [Hnotin Hnd].
  destruct (String.eqb_spec a name) as [-> | Hne]; [exact Hnotin |].
  simpl. intros [H | H]; [contradiction | now apply IH].
Qed.

Lemma spacePuts_In env kvs original names key val :
  In (key, val) kvs ->
  In original (zone_names (parseSpace env val)) ->
  In (BatchPut (spaceKey env (spaceId env key))
        (spaceVal env
           (withZoneNames (parseSpace env val)
              (eraseFirst original (zone_names (parseSpace env val)) ++ names))))
     (spacePuts env kvs original names).
Proof.
  intros Hin Hzone. unfold spacePuts. apply in_flat_map.
  exists (key, val). split; [exact Hin |]. simpl.
  apply existsb_name in Hzone. rewrite Hzone. now left.
Qed.

(** X12.  When a division is accepted, every space the scan visits that
    lists the divided zone is written back, in the same batch, with a zone
    list that is one name shorter plus the new names: the first occurrence of
    the divided zone is taken out, the other zones are kept, all new zones
    are appended, and, if the space listed each zone once, the divided zone
    is no longer in the list. *)
Theorem spaces_follow_the_division (env : Env) (req : DivideZoneReq)
  (batch : list BatchOp) (kvs : list (string * string)) (key val : string) :
  process env req = BatchSubmitted batch ->
  doPrefix env (spacePrefix env) = inr kvs ->
  In (key, val) kvs ->
  In (zone_name req) (zone_names (parseSpace env val)) ->
  let zones := zone_names (parseSpace env val) in
  let zones' := eraseFirst (zone_name req) zones ++ map fst (zone_items req) in
  In (BatchPut (spaceKey env (spaceId env key))
        (spaceVal env (withZoneNames (parseSpace env val) zones')))
     batch /\
  length zones' + 1 = length zones + length (zone_items req) /\
  (forall z, In z (map fst (zone_items req)) -> In z zones') /\
  (forall z, z <> zone_name req -> In z zones -> In z zones') /\
  (NoDup zones -> ~ In (zone_name req) zones').
Proof.
  intros Hrun Hprefix Hin Hzone zones zones'.
  apply process_submits_iff in Hrun.
  destruct Hrun as (v & kvs' & Hget & _ & Hacc & _ & _ & Hprefix' & ->).
  rewrite Hprefix in Hprefix'. injection Hprefix' as <-.
  split; [| split; [| split; [| split]]].
  - apply in_or_app. right. apply in_or_app. right. now apply spacePuts_In.
  - unfold zones'. rewrite length_app, length_map.
    pose proof (eraseFirst_length (zone_name req) zones Hzone). lia.
  - intros z Hz. apply in_or_app. now right.
  - intros z Hne Hz. apply in_or_app. left. now apply eraseFirst_other.
  - intros Hnd Hbad. apply in_app_or in Hbad. destruct Hbad as [Hbad | Hbad].
    + now apply (eraseFirst_gone (zone_name req) Hnd).
    + apply in_map_iff in Hbad. destruct Hbad as ([z hs] & Hz & Hitem).
      simpl in Hz. subst z.
      destruct Hacc as (Hitems & _).
      destruct (Hitems _ _ Hitem) as (Hfail & _).
      rewrite Hget in Hfail. discriminate.
Qed.

Lemma spaces_follow_the_division_witness :
  In (BatchPut "__spaces__1" "z9,za,zb")
     [BatchPut "__zones__za" "10.0.0.1,10.0.0.2";
      BatchPut "__zones__zb" "10.0.0.3";
      BatchRemove "__zones__z0";
      BatchPut "__spaces__1" "z9,za,zb"] /\
  ~ In "z0"%string ["z9"; "za"; "zb"]%string.
Proof.
  destruct (@spaces_follow_the_division sampleEnv sampleReq _
              [("__spaces__1"%string, "s1"%string)] "__spaces__1"%string "s1"%string
              eq_refl eq_refl (or_introl eq_refl) (or_introl eq_refl))
    as (Hput & _ & _ & _ & Hgone).
  split; [exact Hput |]. apply Hgone.
  repeat constructor; simpl; intuition discriminate.
Defined.

(** ** How a division is refused *)

Lemma itemsLoop_existed env items :
  forall st,
    code (itemsLoop env items st) = E_EXISTED ->
    code st = E_EXISTED \/
    exists zone hosts,
      In (zone, hosts) items /\ isOk (doGet env (zoneKey env zone)) = true.
Proof.
  induction items as [| [zone hosts] rest IH]; intros st H; [now left |].
  simpl in H.
  destruct (isOk (doGet env (zoneKey env zone))) eqn:Hget.
  { right. exists zone, hosts. split; [now left | exact Hget]. }
  destruct (existsb (String.eqb zone) (zoneNames st)); [discriminate |].
  destruct (hasAdjacentDuplicate hosts); [discriminate |].
  apply IH in H. destruct H as [H | (z & hs & Hin & Hok)].
  - left. destruct hosts; simpl in H; [discriminate | exact H].
  - right. exists z, hs. split; [now right | exact Hok].
Qed.

Lemma itemsLoop_codes env items :
  forall st,
    code (itemsLoop env items st) = code st \/
    code (itemsLoop env items st) = E_EXISTED \/
    code (itemsLoop env items st) = E_INVALID_PARM.
Proof.
  induction items as [| [zone hosts] rest IH]; intro st; [now left |].
  simpl.
  destruct (isOk (doGet env (zoneKey env zone))); [right; now left |].
  destruct (existsb (String.eqb zone) (zoneNames st)); [right; now right |].
  destruct (hasAdjacentDuplicate hosts); [right; now right |].
  match goal with |- context [itemsLoop env rest ?s] => destruct (IH s) as [H | H] end.
  - rewrite H. destruct hosts; simpl; [right; now right | now left].
  - right. exact H.
Qed.

Lemma hostsLoop_codes hosts zoneHosts c :
  hostsLoop hosts zoneHosts c = c \/ hostsLoop hosts zoneHosts c = E_INVALID_PARM.
Proof.
  induction hosts as [| h rest IH]; simpl; [now left |].
  destruct (existsb (HostAddr_eqb h) zoneHosts); [exact IH | now right].
Qed.

(** X13.  A refused division never ends with [SUCCEEDED].  It ends with
    [E_ZONE_NOT_FOUND] exactly when the read of the zone to divide fails,
    whatever the store's own error was; with [E_EXISTED] only if one of the
    new zones can be read from the store; with [E_KEY_NOT_FOUND] only if the
    zone and the new zones passed every check and the spaces could not be
    listed. *)
Theorem refusal_codes (env : Env) (req : DivideZoneReq) (c : Code) :
  process env req = Finished c ->
  c <> SUCCEEDED /\
  (c = E_ZONE_NOT_FOUND <-> isOk (doGet env (zoneKey env (zone_name req))) = false) /\
  (c = E_EXISTED ->
   exists zone hosts,
     In (zone, hosts) (zone_items req) /\
     isOk (doGet env (zoneKey env zone)) = true) /\
  (c = E_KEY_NOT_FOUND ->
   isOk (doGet env (zoneKey env (zone_name req))) = true /\
   itemsAccepted env [] (zone_items req) /\
   isOk (doPrefix env (spacePrefix env)) = false).
Proof.
  unfold process.
  destruct (doGet env (zoneKey env (zone_name req))) as [e | zoneValue] eqn:Hget.
  { intro H. injection H as <-. simpl.
    split; [discriminate |]. split; [tauto |]. split; discriminate. }
  simpl isOk.
  destruct (Nat.ltb (length (parseZoneHosts env zoneValue)) (length (zone_items req))).
  { intro H. injection H as <-.
    split; [discriminate |]. split; [split; discriminate |]. split; discriminate. }
  set (st0 := {| zoneNames := []; totalHosts := []; batchHolder := [];
                 code := SUCCEEDED |}).
  pose proof (itemsLoop_codes env (zone_items req) st0) as Hcodes.
  pose proof (@itemsLoop_existed env (zone_items req) st0) as Hexisted.
  pose proof (@itemsLoop_accepts env (zone_items req) st0 eq_refl) as Hacc.
  destruct (Code_eqb (code (itemsLoop env (zone_items req) st0)) SUCCEEDED) eqn:Hcode.
  2: { simpl. intro H. injection H as <-.
       assert (Hne : code (itemsLoop env (zone_items req) st0) <> SUCCEEDED).
       { intro Heq. apply Code_eqb_eq in Heq. congruence. }
       split; [exact Hne |]. split; [| split].
       - split; [| discriminate]. intro Hz. rewrite Hz in Hcodes.
         destruct Hcodes as [H | [H | H]]; discriminate.
       - intro He. destruct (Hexisted He) as [H | H]; [discriminate | exact H].
       - intro Hk. rewrite Hk in Hcodes.
         destruct Hcodes as [H | [H | H]]; discriminate. }
  apply Code_eqb_eq in Hcode. simpl negb. cbv iota.
  destruct (Nat.eqb (length (totalHosts (itemsLoop env (zone_items req) st0)))
              (length (parseZoneHosts env zoneValue))).
  2: { simpl. intro H. injection H as <-.
       split; [discriminate |]. split; [split; discriminate |]. split; discriminate. }
  simpl negb. cbv iota. rewrite Hcode.
  destruct (hostsLoop_codes (totalHosts (itemsLoop env (zone_items req) st0))
              (parseZoneHosts env zoneValue) SUCCEEDED) as [Hh | Hh]; rewrite Hh.
  2: { simpl. intro H. injection H as <-.
       split; [discriminate |]. split; [split; discriminate |]. split; discriminate. }
  simpl negb. cbv iota. unfold updateSpacesZone.
  destruct (doPrefix env (spacePrefix env)) as [e | kvs]; simpl; [| discriminate].
  intro H. injection H as <-.
  split; [discriminate |]. split; [split; discriminate |].
  split; [discriminate |]. intros _.
  split; [reflexivity |]. split; [| reflexivity].
  apply Hacc. exact Hcode.
Qed.

Lemma refusal_codes_witness :
  E_EXISTED <> SUCCEEDED /\
  exists zone hosts,
    In (zone, hosts) [("z0"%string, [hostX; hostY; hostZ])] /\
    isOk (doGet sampleEnv (zoneKey sampleEnv zone)) = true.
Proof.
  destruct (@refusal_codes sampleEnv
              {| zone_name := "z0"; zone_items := [("z0"%string, [hostX; hostY; hostZ])] |}
              E_EXISTED eq_refl) as (Hne & _ & Hex & _).
  split; [exact Hne | exact (Hex eq_refl)].
Defined.

End DivideZoneFacts.
